(** * pholcus: the history ledger and the collection pipeline

    A shallow embedding of [app/aid/history/history.go] and
    [app/pipeline/collector/collector.go], with the properties of the
    design document stated over it.

    - [History] models the ledger: the operations run in a small monad
      that threads the ledger, the storage backends and a trace of the
      events an operation performs (lock, unlock, field accesses,
      backend reads and writes, log lines); a Go panic is a result of
      its own.
    - [Collector] models [Manage] and the goroutines around it as a
      labelled transition function: a label picks the goroutine that
      takes its next step and a schedule is a list of labels. *)

From Stdlib Require Import ZArith NArith Lia.
From stdpp Require Import base tactics option list strings gmap.

Set Default Proof Using "Type".

(* ===================================================================== *)
(** * The history ledger *)
(* ===================================================================== *)

Module History.

(** ** Data *)

(** [Record] of history.go: what a success record exposes. *)
Record HRecord := mkRecord { GetUrl : string; GetMethod : string }.

(** [Success] and [Failure]: the fields history.go reads and writes,
    with the types it allocates them at (the structs are declared in
    files that are not among the sources). *)
Record Success := mkSuccess {
  s_new : gmap string bool;
  s_old : gmap string bool;
  s_inheritable : bool
}.

Record Failure := mkFailure {
  f_list : gmap string (gmap string bool);
  f_inheritable : bool
}.

(** [History]: the two embedded structs and the provider; the embedded
    [sync.RWMutex] shows in the trace of events. *)
Record Ledger := mkLedger {
  success : Success;
  failure : Failure;
  provider : string
}.

(** [New]. *)
Definition New : Ledger :=
  {| success := {| s_new := ∅; s_old := ∅; s_inheritable := false |};
     failure := {| f_list := ∅; f_inheritable := false |};
     provider := "" |}.

(** ** The storage backends, at their boundary *)

Inductive Backend := Mgo | Mysql | File.

(** What [mgo.Mgo(&docs, "find", ...)] leaves: an error, or the documents
    under ["Docs"]; a document is [Some id] when its [_id] is a string,
    [None] when the type assertion [.(string)] on it fails. *)
Inductive MgoFind := MgoErr | MgoDocs (docs : list (option string)).

(** The state of the three stores, as the read paths see it.  A row of
    a [SelectAll] is [None] when [rows.Scan] fails on it (the variable
    scanned into keeps its zero value); a file is [None] when
    [os.Open] fails and otherwise the bytes [ioutil.ReadAll] returns. *)
Record World := mkWorld {
  mgo_find : string → string → MgoFind;
  mgo_error : bool;
  mgo_all : string → string → list (option string);
  mysql_db : bool;
  mysql_select_all : string → option (list (option string));
  fs_open : string → option (list Byte.byte);
  written : list (Backend * string * list string)
}.

(** The collaborators the ledger is linked against. *)
Class Env := {
  Request : Type;
  (** [request.UnSerialize]: [None] is its error. *)
  UnSerialize : string → option Request;
  GetSpiderName : Request → string;
  (** The fingerprint of a record. *)
  makeUnique : HRecord → string;
  (** [json.Unmarshal(b, &m)], its error dropped: the map it leaves. *)
  json_success : list Byte.byte → gmap string bool → gmap string bool;
  json_failure : list Byte.byte → gmap string (gmap string bool)
                 → gmap string (gmap string bool);
  (** The write half of a backend: the number written, whether it
      failed. *)
  backend_write : Backend → string → list string → World → nat * bool;
  MGO_DB : string;
  SUCCESS_FILE : string;
  FAILURE_FILE : string;
  SUCCESS_FILE_FULL : string;
  FAILURE_FILE_FULL : string
}.

(** ** Events and the monad *)

Inductive Field :=
  FProvider | FSuccessNew | FSuccessOld | FSuccessInheritable
| FFailureList | FFailureInheritable.

Inductive Event :=
| EvLock
| EvUnlock
| EvRead (f : Field)
| EvWrite (f : Field)
| EvBackendRead (b : Backend) (table : string)
| EvBackendWrite (b : Backend) (table : string)
| EvLogError
| EvLogInfo (n : option nat).

Record St := mkSt {
  ledger : Ledger;
  world : World;
  trace : list Event
}.

Inductive Result (A : Type) := Returned (a : A) | Panicked.
Arguments Returned {A} a.
Arguments Panicked {A}.

Definition M (A : Type) : Type := St → Result A * St.

Definition ret {A} (a : A) : M A := λ st, (Returned a, st).

Definition bind {A B} (m : M A) (k : A → M B) : M B :=
  λ st, match m st with
        | (Returned a, st') => k a st'
        | (Panicked, st') => (Panicked, st')
        end.

Definition panic {A} : M A := λ st, (Panicked, st).

Declare Scope ledger_scope.
Delimit Scope ledger_scope with ledger.
Notation "'let*' x := m 'in' k" := (bind m (λ x, k))
  (at level 10, x name, m at level 100, k at level 200) : ledger_scope.
Notation "m ;; k" := (bind m (λ _, k))
  (at level 100, k at level 200, right associativity) : ledger_scope.
Local Open Scope ledger_scope.

Definition emit (e : Event) : M unit :=
  λ st, (Returned tt, {| ledger := ledger st; world := world st;
                          trace := trace st ++ [e] |}).

Definition get_ledger : M Ledger := λ st, (Returned (ledger st), st).
Definition get_world : M World := λ st, (Returned (world st), st).

Definition put_ledger (h : Ledger) : M unit :=
  λ st, (Returned tt, {| ledger := h; world := world st; trace := trace st |}).

Definition put_world (w : World) : M unit :=
  λ st, (Returned tt, {| ledger := ledger st; world := w; trace := trace st |}).

(** [for _, v := range l { body }]. *)
Fixpoint for_each {A} (l : list A) (body : A → M unit) : M unit :=
  match l with
  | [] => ret tt
  | v :: l' => body v ;; for_each l' body
  end.

(** *** The lock and the fields *)

Definition Lock : M unit := emit EvLock.
Definition Unlock : M unit := emit EvUnlock.

Definition with_success (f : Success → Success) (h : Ledger) : Ledger :=
  {| success := f (success h); failure := failure h; provider := provider h |}.

Definition with_failure (f : Failure → Failure) (h : Ledger) : Ledger :=
  {| success := success h; failure := f (failure h); provider := provider h |}.

Definition set_provider (p : string) : M unit :=
  emit (EvWrite FProvider) ;;
  let* h := get_ledger in
  put_ledger {| success := success h; failure := failure h; provider := p |}.

Definition set_old (m : gmap string bool) : M unit :=
  emit (EvWrite FSuccessOld) ;;
  let* h := get_ledger in
  put_ledger (with_success (λ s, {| s_new := s_new s; s_old := m;
                                     s_inheritable := s_inheritable s |}) h).

Definition set_new (m : gmap string bool) : M unit :=
  emit (EvWrite FSuccessNew) ;;
  let* h := get_ledger in
  put_ledger (with_success (λ s, {| s_new := m; s_old := s_old s;
                                     s_inheritable := s_inheritable s |}) h).

Definition set_success_inheritable (b : bool) : M unit :=
  emit (EvWrite FSuccessInheritable) ;;
  let* h := get_ledger in
  put_ledger (with_success (λ s, {| s_new := s_new s; s_old := s_old s;
                                     s_inheritable := b |}) h).

Definition get_old : M (gmap string bool) :=
  emit (EvRead FSuccessOld) ;;
  let* h := get_ledger in ret (s_old (success h)).

Definition get_new : M (gmap string bool) :=
  emit (EvRead FSuccessNew) ;;
  let* h := get_ledger in ret (s_new (success h)).

Definition get_success_inheritable : M bool :=
  emit (EvRead FSuccessInheritable) ;;
  let* h := get_ledger in ret (s_inheritable (success h)).

Definition set_list (m : gmap string (gmap string bool)) : M unit :=
  emit (EvWrite FFailureList) ;;
  let* h := get_ledger in
  put_ledger (with_failure (λ f, {| f_list := m;
                                     f_inheritable := f_inheritable f |}) h).

Definition set_failure_inheritable (b : bool) : M unit :=
  emit (EvWrite FFailureInheritable) ;;
  let* h := get_ledger in
  put_ledger (with_failure (λ f, {| f_list := f_list f;
                                     f_inheritable := b |}) h).

Definition get_list : M (gmap string (gmap string bool)) :=
  emit (EvRead FFailureList) ;;
  let* h := get_ledger in ret (f_list (failure h)).

Definition get_failure_inheritable : M bool :=
  emit (EvRead FFailureInheritable) ;;
  let* h := get_ledger in ret (f_inheritable (failure h)).

(** The three lines every operation that takes a provider starts with:
    [self.RWMutex.Lock(); self.provider = provider; self.RWMutex.Unlock()]. *)
Definition record_provider (p : string) : M unit :=
  Lock ;;
  set_provider p ;;
  Unlock.

(** [self.Success.old[id] = true]. *)
Definition old_insert (id : string) : M unit :=
  let* m := get_old in set_old (<[id := true]> m).

(** The body shared by the two stores in [ReadFailure]:
    [if _, ok := list[spName]; !ok { list[spName] = make(...) }]
    and then [list[spName][failure] = true]. *)
Definition list_insert (spName failure : string) : M unit :=
  let* m := get_list in
  let inner := match m !! spName with Some i => i | None => ∅ end in
  set_list (<[spName := <[failure := true]> inner]> m).

Section WithEnv.
Context `{Env}.

(** [b[0] = '{'] and then [append(b, '}')]: the index panics on an
    empty slice. *)
Definition patch_braces (b : list Byte.byte) : M (list Byte.byte) :=
  match b with
  | [] => panic
  | _ :: rest => ret (Byte.x7b :: rest ++ [Byte.x7d])
  end.

(** ** [ReadSuccess] *)

Definition ReadSuccess_mgo : M unit :=
  emit (EvBackendRead Mgo SUCCESS_FILE) ;;
  let* w := get_world in
  match mgo_find w MGO_DB SUCCESS_FILE with
  | MgoErr => emit EvLogError
  | MgoDocs docs =>
      for_each docs (λ v,
        match v with
        | Some id => old_insert id
        | None => panic
        end) ;;
      let* m := get_old in emit (EvLogInfo (Some (size m)))
  end.

Definition ReadSuccess_mysql : M unit :=
  let* w := get_world in
  if negb (mysql_db w) then emit EvLogError
  else
    emit (EvBackendRead Mysql SUCCESS_FILE) ;;
    match mysql_select_all w ("`" +:+ SUCCESS_FILE +:+ "`") with
    | None => ret tt
    | Some rows =>
        for_each rows (λ r,
          old_insert (match r with Some id => id | None => "" end)) ;;
        let* m := get_old in emit (EvLogInfo (Some (size m)))
    end.

Definition ReadSuccess_file : M unit :=
  emit (EvBackendRead File SUCCESS_FILE_FULL) ;;
  let* w := get_world in
  match fs_open w SUCCESS_FILE_FULL with
  | None => ret tt
  | Some b =>
      let* b' := patch_braces b in
      let* m := get_old in
      set_old (json_success b' m) ;;
      let* m := get_old in emit (EvLogInfo (Some (size m)))
  end.

(** [switch provider { case "mgo": ... case "mysql": ... default: ... }]. *)
Definition ReadSuccess_switch (provider : string) : M unit :=
  if String.eqb provider "mgo" then ReadSuccess_mgo
  else if String.eqb provider "mysql" then ReadSuccess_mysql
  else ReadSuccess_file.

Definition ReadSuccess (provider : string) (inherit : bool) : M unit :=
  record_provider provider ;;
  if negb inherit then
    set_old ∅ ;;
    set_new ∅ ;;
    set_success_inheritable false
  else
    let* inh := get_success_inheritable in
    if inh then ret tt
    else
      set_old ∅ ;;
      set_new ∅ ;;
      set_success_inheritable true ;;
      ReadSuccess_switch provider.

(** ** [ReadFailure] *)

(** The loop body of the two stores: a record that does not
    deserialize is skipped. *)
Definition load_failure (failure : string) : M nat :=
  match UnSerialize failure with
  | None => ret 0
  | Some req => list_insert (GetSpiderName req) failure ;; ret 1
  end.

Fixpoint load_failures (l : list (option string)) (strict : bool)
    (fLen : nat) : M nat :=
  match l with
  | [] => ret fLen
  | v :: l' =>
      match v, strict with
      | None, true => panic
      | _, _ =>
          let* n := load_failure (match v with Some s => s | None => "" end) in
          load_failures l' strict (fLen + n)
      end
  end.

Definition ReadFailure_mgo : M unit :=
  let* w := get_world in
  if mgo_error w then emit EvLogError
  else
    emit (EvBackendRead Mgo FAILURE_FILE) ;;
    let* fLen := load_failures (mgo_all w MGO_DB FAILURE_FILE) true 0 in
    emit (EvLogInfo (Some fLen)).

Definition ReadFailure_mysql : M unit :=
  let* w := get_world in
  if negb (mysql_db w) then emit EvLogError
  else
    emit (EvBackendRead Mysql FAILURE_FILE) ;;
    match mysql_select_all w ("`" +:+ FAILURE_FILE +:+ "`") with
    | None => ret tt
    | Some rows =>
        let* fLen := load_failures rows false 0 in
        emit (EvLogInfo (Some fLen))
    end.

Definition ReadFailure_file : M unit :=
  emit (EvBackendRead File FAILURE_FILE_FULL) ;;
  let* w := get_world in
  match fs_open w FAILURE_FILE_FULL with
  | None => ret tt
  | Some b =>
      let* b' := patch_braces b in
      let* m := get_list in
      set_list (json_failure b' m) ;;
      let* m := get_list in
      emit (EvLogInfo (Some (map_fold (λ _ v n, n + size v) 0 m)))
  end.

Definition ReadFailure_switch (provider : string) : M unit :=
  if String.eqb provider "mgo" then ReadFailure_mgo
  else if String.eqb provider "mysql" then ReadFailure_mysql
  else ReadFailure_file.

Definition ReadFailure (provider : string) (inherit : bool) : M unit :=
  record_provider provider ;;
  if negb inherit then
    set_list ∅ ;;
    set_failure_inheritable false
  else
    let* inh := get_failure_inheritable in
    if inh then ret tt
    else
      set_list ∅ ;;
      set_failure_inheritable true ;;
      ReadFailure_switch provider.

(** ** [Empty] *)

Definition Empty : M unit :=
  Lock ;;
  set_new ∅ ;;
  set_old ∅ ;;
  set_list ∅ ;;
  Unlock.

(** ** [FlushSuccess] and [FlushFailure] *)

(** The store a provider string selects. *)
Definition backend_of (provider : string) : Backend :=
  if String.eqb provider "mgo" then Mgo
  else if String.eqb provider "mysql" then Mysql
  else File.

Definition record_write (b : Backend) (table : string)
    (entries : list string) : M (nat * bool) :=
  emit (EvBackendWrite b table) ;;
  let* w := get_world in
  put_world {| mgo_find := mgo_find w; mgo_error := mgo_error w;
               mgo_all := mgo_all w; mysql_db := mysql_db w;
               mysql_select_all := mysql_select_all w;
               fs_open := fs_open w;
               written := written w ++ [(b, table, entries)] |} ;;
  ret (backend_write b table entries w).

(** Modelled from the spec: [Success.flush] is not among the sources.
    "persist the in-memory new success fingerprints to the backend,
    returning a count and an error"; the provider selects the backend
    and "unrecognized provider falls back to the flat-file backend";
    "Flush does not clear the in-memory cache"; "a read/flush acquires
    the same lock for its duration". *)
Definition success_flush (provider : string) : M (nat * bool) :=
  Lock ;;
  let* m := get_new in
  let b := backend_of provider in
  let* r :=
    record_write b
      (match b with File => SUCCESS_FILE_FULL | _ => SUCCESS_FILE end)
      (map fst (map_to_list m)) in
  Unlock ;;
  ret r.

(** Modelled from the spec: [Failure.flush] is not among the sources.
    "persist the in-memory failure index entries to the backend,
    returning a count and an error", with the same choice of backend
    and under the same lock. *)
Definition failure_flush (provider : string) : M (nat * bool) :=
  Lock ;;
  let* m := get_list in
  let b := backend_of provider in
  let* r :=
    record_write b
      (match b with File => FAILURE_FILE_FULL | _ => FAILURE_FILE end)
      (concat (map (λ kv, map fst (map_to_list (snd kv))) (map_to_list m))) in
  Unlock ;;
  ret r.

Definition FlushSuccess (provider : string) : M unit :=
  record_provider provider ;;
  let* r := success_flush provider in
  emit (EvLogInfo None) ;;
  if snd r then emit EvLogError else emit (EvLogInfo (Some (fst r))).

Definition FlushFailure (provider : string) : M unit :=
  record_provider provider ;;
  let* r := failure_flush provider in
  emit (EvLogInfo None) ;;
  if snd r then emit EvLogError else emit (EvLogInfo (Some (fst r))).

(** What [FlushSuccess] and [FlushFailure] do around the flush they
    call, whatever that flush does: [flush] stands for
    [self.Success.flush] in the one and [self.Failure.flush] in the
    other. *)
Definition Flush_with (flush : string → M (nat * bool))
    (provider : string) : M unit :=
  record_provider provider ;;
  let* r := flush provider in
  emit (EvLogInfo None) ;;
  if snd r then emit EvLogError else emit (EvLogInfo (Some (fst r))).

(** ** [UpsertSuccess] *)

(** Modelled from the spec: [UpsertSuccess] is declared by the
    [Historier] interface and implemented in a file that is not among
    the sources.  "computes the record's fingerprint; if absent from
    both old and new, inserts into new and returns true (a fresh
    success); if already present, returns false (duplicate, no-op)",
    under the ledger's lock. *)
Definition UpsertSuccess (record : HRecord) : M bool :=
  let f := makeUnique record in
  Lock ;;
  let* o := get_old in
  let* n := get_new in
  match o !! f, n !! f with
  | None, None => set_new (<[f := true]> n) ;; Unlock ;; ret true
  | _, _ => Unlock ;; ret false
  end.

End WithEnv.

(** ** Reading a trace *)

(** The number of backend reads an operation issued. *)
Definition is_backend_read (e : Event) : bool :=
  match e with EvBackendRead _ _ => true | _ => false end.

Definition backend_reads (t : list Event) : nat :=
  length (filter (λ e, is_backend_read e = true) t).

(** Whether an event touches the Success Set or the Failure Index. *)
Definition touches_sets (e : Event) : bool :=
  match e with
  | EvRead f | EvWrite f =>
      match f with FProvider => false | _ => true end
  | _ => false
  end.

(** [guarded held t]: every access to the Success Set or the Failure
    Index in [t] happens while the lock is held, [held] telling whether
    it is at the start. *)
Fixpoint guarded (held : bool) (t : list Event) : bool :=
  match t with
  | [] => true
  | EvLock :: t' => guarded true t'
  | EvUnlock :: t' => guarded false t'
  | e :: t' => (negb (touches_sets e) || held) && guarded held t'
  end.

Definition is_lock_event (e : Event) : bool :=
  match e with EvLock | EvUnlock => true | _ => false end.

(** How often a fingerprint occurs in the Success Set. *)
Definition occurrences (f : string) (s : Success) : nat :=
  (match s_old s !! f with Some _ => 1 | None => 0 end)
  + (match s_new s !! f with Some _ => 1 | None => 0 end).

(** ** Lemmas on the monad *)

Section Proofs.
Context `{Env}.

(** A relation between the state before and after that every step of a
    computation keeps is kept by the computation. *)
Definition keeps {A} (R : St → St → Prop) (m : M A) : Prop :=
  ∀ st, R st (snd (m st)).

Lemma keeps_ret {A} (R : St → St → Prop) (a : A) :
  Reflexive R → keeps R (ret a).
Proof. intros HR st. apply HR. Qed.

Lemma keeps_panic {A} (R : St → St → Prop) :
  Reflexive R → keeps R (@panic A).
Proof. intros HR st. apply HR. Qed.

Lemma keeps_bind {A B} (R : St → St → Prop) (m : M A) (k : A → M B) :
  Transitive R → keeps R m → (∀ a, keeps R (k a)) → keeps R (bind m k).
Proof.
  intros HT Hm Hk st. unfold bind. specialize (Hm st).
  destruct (m st) as [[a|] st1]; simpl in *; [|done].
  etrans; [exact Hm | apply Hk].
Qed.

Lemma keeps_for_each {A} (R : St → St → Prop) (l : list A) body :
  Reflexive R → Transitive R →
  (∀ v, keeps R (body v)) → keeps R (for_each l body).
Proof.
  intros HR HT Hb. induction l as [|v l IH]; simpl.
  - by apply keeps_ret.
  - apply keeps_bind; auto.
Qed.

(** *** What a load leaves alone *)

(** The events of a loop body: field accesses and log lines. *)
Definition silent (e : Event) : Prop :=
  is_lock_event e = false ∧ is_backend_read e = false.

(** [grows P st st']: the trace of [st'] is the trace of [st] followed
    by events that satisfy [P]. *)
Definition grows (P : Event → Prop) (st st' : St) : Prop :=
  ∃ evs, trace st' = trace st ++ evs ∧ Forall P evs.

(** What loading the Success Set keeps: everything but [old]. *)
Definition frame_success (st st' : St) : Prop :=
  world st' = world st ∧
  failure (ledger st') = failure (ledger st) ∧
  provider (ledger st') = provider (ledger st) ∧
  s_new (success (ledger st')) = s_new (success (ledger st)) ∧
  s_inheritable (success (ledger st')) = s_inheritable (success (ledger st)).

(** What loading the Failure Index keeps: everything but [list]. *)
Definition frame_failure (st st' : St) : Prop :=
  world st' = world st ∧
  success (ledger st') = success (ledger st) ∧
  provider (ledger st') = provider (ledger st) ∧
  f_inheritable (failure (ledger st')) = f_inheritable (failure (ledger st)).

Definition load_success (st st' : St) : Prop :=
  frame_success st st' ∧ grows silent st st'.

Definition load_failure_rel (st st' : St) : Prop :=
  frame_failure st st' ∧ grows silent st st'.

Global Instance grows_refl P : Reflexive (grows P).
Proof. intros st. exists []. by rewrite app_nil_r. Qed.

Global Instance grows_trans P : Transitive (grows P).
Proof.
  intros a b c (e1 & H1 & F1) (e2 & H2 & F2). exists (e1 ++ e2).
  split; [by rewrite H2, H1, app_assoc | by apply Forall_app].
Qed.

Global Instance load_success_refl : Reflexive load_success.
Proof. intros st. split; [by repeat split | reflexivity]. Qed.

Global Instance load_success_trans : Transitive load_success.
Proof.
  intros a b c [(?&?&?&?&?) G1] [(?&?&?&?&?) G2].
  split; [repeat split; congruence | by etrans].
Qed.

Global Instance load_failure_refl : Reflexive load_failure_rel.
Proof. intros st. split; [by repeat split | reflexivity]. Qed.

Global Instance load_failure_trans : Transitive load_failure_rel.
Proof.
  intros a b c [(?&?&?&?) G1] [(?&?&?&?) G2].
  split; [repeat split; congruence | by etrans].
Qed.

Lemma old_insert_keeps id : keeps load_success (old_insert id).
Proof.
  intros st. split; [by repeat split|].
  exists [EvRead FSuccessOld; EvWrite FSuccessOld]. simpl.
  split; [by rewrite <- app_assoc | repeat constructor].
Qed.

Lemma list_insert_keeps sp f : keeps load_failure_rel (list_insert sp f).
Proof.
  intros st. split; [by repeat split|].
  exists [EvRead FFailureList; EvWrite FFailureList]. simpl.
  split; [by rewrite <- app_assoc | repeat constructor].
Qed.

Lemma load_failure_keeps f : keeps load_failure_rel (load_failure f).
Proof.
  unfold load_failure. destruct (UnSerialize f).
  - apply keeps_bind; [apply _ | apply list_insert_keeps |].
    intros _. apply keeps_ret, _.
  - apply keeps_ret, _.
Qed.

Lemma load_failures_keeps l strict n :
  keeps load_failure_rel (load_failures l strict n).
Proof.
  revert n. induction l as [|v l IH]; intros n; simpl.
  - apply keeps_ret, _.
  - destruct v as [s|], strict;
      try (apply keeps_bind; [apply _ | apply load_failure_keeps | auto]).
    apply keeps_panic, _.
Qed.

Lemma emit_keeps_success e : silent e → keeps load_success (emit e).
Proof.
  intros He st. split; [by repeat split|]. exists [e]. split; [done | by apply Forall_singleton].
Qed.

Lemma emit_keeps_failure e : silent e → keeps load_failure_rel (emit e).
Proof.
  intros He st. split; [by repeat split|]. exists [e]. split; [done | by apply Forall_singleton].
Qed.

Lemma get_old_keeps : keeps load_success get_old.
Proof.
  intros st. split; [by repeat split|].
  exists [EvRead FSuccessOld]. split; [done | by apply Forall_singleton].
Qed.

Lemma set_old_keeps m : keeps load_success (set_old m).
Proof.
  intros st. split; [by repeat split|].
  exists [EvWrite FSuccessOld]. split; [done | by apply Forall_singleton].
Qed.

Lemma get_list_keeps : keeps load_failure_rel get_list.
Proof.
  intros st. split; [by repeat split|].
  exists [EvRead FFailureList]. split; [done | by apply Forall_singleton].
Qed.

Lemma set_list_keeps m : keeps load_failure_rel (set_list m).
Proof.
  intros st. split; [by repeat split|].
  exists [EvWrite FFailureList]. split; [done | by apply Forall_singleton].
Qed.

Lemma patch_braces_keeps (R : St → St → Prop) b :
  Reflexive R → keeps R (patch_braces b).
Proof. intros HR. destruct b; [by apply keeps_panic | by apply keeps_ret]. Qed.

(** Composing the above along the structure of a computation. *)
Ltac keeps_step :=
  first
    [ apply keeps_ret; apply _
    | apply keeps_panic; apply _
    | apply old_insert_keeps
    | apply list_insert_keeps
    | apply get_old_keeps
    | apply set_old_keeps
    | apply get_list_keeps
    | apply set_list_keeps
    | apply load_failures_keeps
    | apply patch_braces_keeps; apply _
    | apply emit_keeps_success; by split
    | apply emit_keeps_failure; by split
    | apply keeps_for_each; [apply _ | apply _ | intros ?]
    | apply keeps_bind; [apply _ | | intros ?] ].

Ltac keeps_auto := repeat keeps_step.

Lemma backend_reads_app t1 t2 :
  backend_reads (t1 ++ t2) = backend_reads t1 + backend_reads t2.
Proof. unfold backend_reads. by rewrite filter_app, length_app. Qed.

Lemma backend_reads_silent evs : Forall silent evs → backend_reads evs = 0.
Proof.
  induction 1 as [|e evs [_ He] _ IH]; [done|].
  change (e :: evs) with ([e] ++ evs). rewrite backend_reads_app, IH.
  unfold backend_reads. rewrite filter_cons, He. by case_decide.
Qed.

Lemma silent_not_lock evs :
  Forall silent evs → Forall (λ e, is_lock_event e = false) evs.
Proof. intros F. eapply Forall_impl; [exact F|]. by intros e [? _]. Qed.

(** At most one backend read, and no lock event. *)
Definition one_read (st st' : St) : Prop :=
  ∃ evs, trace st' = trace st ++ evs ∧
         Forall (λ e, is_lock_event e = false) evs ∧
         backend_reads evs ≤ 1.

Lemma grows_one_read st st' : grows silent st st' → one_read st st'.
Proof.
  intros (evs & E & F). exists evs. split; [done|].
  split; [by apply silent_not_lock | rewrite backend_reads_silent by done; lia].
Qed.

Lemma read_then_grows b t st st' :
  grows silent
    {| ledger := ledger st; world := world st;
       trace := trace st ++ [EvBackendRead b t] |} st' →
  one_read st st'.
Proof.
  intros (evs & E & F). simpl in E. exists (EvBackendRead b t :: evs).
  split; [by rewrite E, <- app_assoc|].
  split; [constructor; [done | by apply silent_not_lock]|].
  change (EvBackendRead b t :: evs) with ([EvBackendRead b t] ++ evs).
  rewrite backend_reads_app, (backend_reads_silent evs) by done.
  unfold backend_reads. simpl. lia.
Qed.

(** A computation that loads the Success Set with at most one backend
    read and leaves the rest of the ledger alone. *)
Definition loads_success {A} (m : M A) : Prop :=
  ∀ st, frame_success st (snd (m st)) ∧ one_read st (snd (m st)).

Lemma loads_success_keeps {A} (m : M A) :
  keeps load_success m → loads_success m.
Proof. intros K st. destruct (K st). split; [done | by apply grows_one_read]. Qed.

Lemma loads_success_read {A} b t (m : M A) :
  keeps load_success m → loads_success (emit (EvBackendRead b t) ;; m).
Proof.
  intros K st. unfold bind, emit.
  destruct (K {| ledger := ledger st; world := world st;
                 trace := trace st ++ [EvBackendRead b t] |}) as [F G].
  split; [exact F | by eapply read_then_grows].
Qed.

Lemma loads_success_world {A} (k : World → M A) :
  (∀ w, loads_success (k w)) → loads_success (bind get_world k).
Proof. intros Hk st. apply (Hk (world st) st). Qed.

(** The three ways [ReadSuccess] loads. *)
Lemma ReadSuccess_mgo_post : loads_success ReadSuccess_mgo.
Proof.
  apply loads_success_read.
  apply keeps_bind; [apply _ | by intros s; reflexivity |].
  intros w. destruct (mgo_find w MGO_DB SUCCESS_FILE); [keeps_auto|].
  apply keeps_bind; [apply _ | | intros ?; keeps_auto].
  apply keeps_for_each; [apply _ | apply _ |].
  intros [id|]; keeps_auto.
Qed.

Lemma ReadSuccess_mysql_post : loads_success ReadSuccess_mysql.
Proof.
  apply loads_success_world. intros w. destruct (mysql_db w); simpl.
  - apply loads_success_read. destruct (mysql_select_all _ _); keeps_auto.
  - apply loads_success_keeps. keeps_auto.
Qed.

Lemma ReadSuccess_file_post : loads_success ReadSuccess_file.
Proof.
  apply loads_success_read.
  apply keeps_bind; [apply _ | by intros s; reflexivity |].
  intros w. destruct (fs_open w SUCCESS_FILE_FULL); keeps_auto.
Qed.

(** Running the straight-line part of a computation. *)
Ltac run_fields :=
  unfold set_old, set_new, set_success_inheritable, get_old, get_new,
    get_success_inheritable, set_list, set_failure_inheritable, get_list,
    get_failure_inheritable, with_success, with_failure, Lock, Unlock,
    set_provider, bind, emit, get_ledger, put_ledger, get_world, put_world,
    ret, panic;
  simpl.

Lemma ReadSuccess_switch_post p : loads_success (ReadSuccess_switch p).
Proof.
  unfold ReadSuccess_switch.
  destruct (String.eqb p "mgo"); [apply ReadSuccess_mgo_post|].
  destruct (String.eqb p "mysql");
    [apply ReadSuccess_mysql_post | apply ReadSuccess_file_post].
Qed.

(** The state the three opening lines leave. *)
Definition provided (p : string) (st : St) : St :=
  {| ledger := {| success := success (ledger st);
                  failure := failure (ledger st);
                  provider := p |};
     world := world st;
     trace := trace st ++ [EvLock; EvWrite FProvider; EvUnlock] |}.

Lemma record_provider_eq p st :
  record_provider p st = (Returned tt, provided p st).
Proof.
  unfold record_provider, provided. run_fields. by rewrite <- !app_assoc.
Qed.

Lemma ReadSuccess_eq p inherit st :
  ReadSuccess p inherit st =
  (if negb inherit then
     set_old ∅ ;; set_new ∅ ;; set_success_inheritable false
   else
     let* inh := get_success_inheritable in
     if inh then ret tt
     else set_old ∅ ;; set_new ∅ ;; set_success_inheritable true ;;
          ReadSuccess_switch p) (provided p st).
Proof. unfold ReadSuccess, bind at 1. by rewrite record_provider_eq. Qed.

(** [ReadSuccess] without inheritance, in full. *)
Lemma ReadSuccess_cold p st :
  ReadSuccess p false st =
  (Returned tt,
   {| ledger := {| success := {| s_new := ∅; s_old := ∅;
                                 s_inheritable := false |};
                   failure := failure (ledger st);
                   provider := p |};
      world := world st;
      trace := trace st ++ [EvLock; EvWrite FProvider; EvUnlock;
                            EvWrite FSuccessOld; EvWrite FSuccessNew;
                            EvWrite FSuccessInheritable] |}).
Proof.
  rewrite ReadSuccess_eq. unfold provided. run_fields.
  by rewrite <- !app_assoc.
Qed.

(** [ReadSuccess] with inheritance on a ledger that is marked
    inheritable, in full: the flag is read and nothing else happens. *)
Lemma ReadSuccess_skip p st :
  s_inheritable (success (ledger st)) = true →
  ReadSuccess p true st =
  (Returned tt,
   {| ledger := {| success := success (ledger st);
                   failure := failure (ledger st);
                   provider := p |};
      world := world st;
      trace := trace st ++ [EvLock; EvWrite FProvider; EvUnlock;
                            EvRead FSuccessInheritable] |}).
Proof.
  intros Hinh. rewrite ReadSuccess_eq. unfold provided. run_fields.
  rewrite Hinh. simpl. by rewrite <- !app_assoc.
Qed.

(** The state in which [ReadSuccess] with inheritance starts its load
    on a ledger that is not marked inheritable. *)
Definition armed (p : string) (st : St) : St :=
  {| ledger := {| success := {| s_new := ∅; s_old := ∅;
                                s_inheritable := true |};
                  failure := failure (ledger st);
                  provider := p |};
     world := world st;
     trace := trace st ++ [EvLock; EvWrite FProvider; EvUnlock;
                           EvRead FSuccessInheritable;
                           EvWrite FSuccessOld; EvWrite FSuccessNew;
                           EvWrite FSuccessInheritable] |}.

Lemma ReadSuccess_load p st :
  s_inheritable (success (ledger st)) = false →
  ReadSuccess p true st = ReadSuccess_switch p (armed p st).
Proof.
  intros Hinh. rewrite ReadSuccess_eq. unfold provided, armed. run_fields.
  rewrite Hinh. simpl. by rewrite <- !app_assoc.
Qed.

(** After [ReadSuccess] with inheritance the ledger is marked
    inheritable, [new] is empty or as it was, and at most one backend
    read was issued. *)
Lemma ReadSuccess_warm p st :
  let st1 := snd (ReadSuccess p true st) in
  s_inheritable (success (ledger st1)) = true ∧
  backend_reads (trace st1) ≤ backend_reads (trace st) + 1.
Proof.
  simpl. destruct (s_inheritable (success (ledger st))) eqn:Hinh.
  - rewrite ReadSuccess_skip by done. simpl. split; [done|].
    rewrite backend_reads_app. unfold backend_reads at 2. simpl. lia.
  - rewrite ReadSuccess_load by done.
    destruct (ReadSuccess_switch_post p (armed p st))
      as [(_&_&_&_&Hi) (evs & E & _ & Hr)].
    split; [by rewrite Hi|].
    rewrite E. unfold armed. simpl. rewrite !backend_reads_app.
    unfold backend_reads at 2. simpl. lia.
Qed.

(** *** [ReadFailure], likewise *)

Definition loads_failure {A} (m : M A) : Prop :=
  ∀ st, frame_failure st (snd (m st)) ∧ one_read st (snd (m st)).

Lemma loads_failure_keeps {A} (m : M A) :
  keeps load_failure_rel m → loads_failure m.
Proof. intros K st. destruct (K st). split; [done | by apply grows_one_read]. Qed.

Lemma loads_failure_read {A} b t (m : M A) :
  keeps load_failure_rel m → loads_failure (emit (EvBackendRead b t) ;; m).
Proof.
  intros K st. unfold bind, emit.
  destruct (K {| ledger := ledger st; world := world st;
                 trace := trace st ++ [EvBackendRead b t] |}) as [F G].
  split; [exact F | by eapply read_then_grows].
Qed.

Lemma loads_failure_world {A} (k : World → M A) :
  (∀ w, loads_failure (k w)) → loads_failure (bind get_world k).
Proof. intros Hk st. apply (Hk (world st) st). Qed.

Lemma ReadFailure_switch_post p : loads_failure (ReadFailure_switch p).
Proof.
  unfold ReadFailure_switch.
  destruct (String.eqb p "mgo"); [|destruct (String.eqb p "mysql")].
  - apply loads_failure_world. intros w. destruct (mgo_error w); simpl.
    + apply loads_failure_keeps. keeps_auto.
    + apply loads_failure_read. keeps_auto.
  - apply loads_failure_world. intros w. destruct (mysql_db w); simpl.
    + apply loads_failure_read. destruct (mysql_select_all _ _); keeps_auto.
    + apply loads_failure_keeps. keeps_auto.
  - apply loads_failure_read.
    apply keeps_bind; [apply _ | by intros s; reflexivity |].
    intros w. destruct (fs_open w FAILURE_FILE_FULL); keeps_auto.
Qed.

Lemma ReadFailure_eq p inherit st :
  ReadFailure p inherit st =
  (if negb inherit then
     set_list ∅ ;; set_failure_inheritable false
   else
     let* inh := get_failure_inheritable in
     if inh then ret tt
     else set_list ∅ ;; set_failure_inheritable true ;;
          ReadFailure_switch p) (provided p st).
Proof. unfold ReadFailure, bind at 1. by rewrite record_provider_eq. Qed.

Lemma ReadFailure_cold p st :
  ReadFailure p false st =
  (Returned tt,
   {| ledger := {| success := success (ledger st);
                   failure := {| f_list := ∅; f_inheritable := false |};
                   provider := p |};
      world := world st;
      trace := trace st ++ [EvLock; EvWrite FProvider; EvUnlock;
                            EvWrite FFailureList;
                            EvWrite FFailureInheritable] |}).
Proof.
  rewrite ReadFailure_eq. unfold provided. run_fields.
  by rewrite <- !app_assoc.
Qed.

Lemma ReadFailure_skip p st :
  f_inheritable (failure (ledger st)) = true →
  ReadFailure p true st =
  (Returned tt,
   {| ledger := {| success := success (ledger st);
                   failure := failure (ledger st);
                   provider := p |};
      world := world st;
      trace := trace st ++ [EvLock; EvWrite FProvider; EvUnlock;
                            EvRead FFailureInheritable] |}).
Proof.
  intros Hinh. rewrite ReadFailure_eq. unfold provided. run_fields.
  rewrite Hinh. simpl. by rewrite <- !app_assoc.
Qed.

Definition armed_failure (p : string) (st : St) : St :=
  {| ledger := {| success := success (ledger st);
                  failure := {| f_list := ∅; f_inheritable := true |};
                  provider := p |};
     world := world st;
     trace := trace st ++ [EvLock; EvWrite FProvider; EvUnlock;
                           EvRead FFailureInheritable;
                           EvWrite FFailureList;
                           EvWrite FFailureInheritable] |}.

Lemma ReadFailure_load p st :
  f_inheritable (failure (ledger st)) = false →
  ReadFailure p true st = ReadFailure_switch p (armed_failure p st).
Proof.
  intros Hinh. rewrite ReadFailure_eq. unfold provided, armed_failure.
  run_fields. rewrite Hinh. simpl. by rewrite <- !app_assoc.
Qed.

(** *** The flat-file backend *)

Lemma switch_default {A} (p : string) (x y z : A) :
  p ≠ "mgo" → p ≠ "mysql" →
  (if String.eqb p "mgo" then x else if String.eqb p "mysql" then y else z)
  = z.
Proof.
  intros H1 H2. apply String.eqb_neq in H1, H2. by rewrite H1, H2.
Qed.

(** A history file that does not exist: the load returns at once. *)
Lemma ReadSuccess_file_missing st :
  fs_open (world st) SUCCESS_FILE_FULL = None →
  ReadSuccess_file st =
  (Returned tt,
   {| ledger := ledger st; world := world st;
      trace := trace st ++ [EvBackendRead File SUCCESS_FILE_FULL] |}).
Proof. intros E. unfold ReadSuccess_file. run_fields. by rewrite E. Qed.

Lemma ReadFailure_file_missing st :
  fs_open (world st) FAILURE_FILE_FULL = None →
  ReadFailure_file st =
  (Returned tt,
   {| ledger := ledger st; world := world st;
      trace := trace st ++ [EvBackendRead File FAILURE_FILE_FULL] |}).
Proof. intros E. unfold ReadFailure_file. run_fields. by rewrite E. Qed.

(** A history file with content, decodable or not: the first byte is
    overwritten, a brace appended, and what the decoder leaves is kept. *)
Lemma ReadSuccess_file_content st b0 b :
  fs_open (world st) SUCCESS_FILE_FULL = Some (b0 :: b) →
  fst (ReadSuccess_file st) = Returned tt ∧
  s_old (success (ledger (snd (ReadSuccess_file st))))
  = json_success (Byte.x7b :: b ++ [Byte.x7d]) (s_old (success (ledger st))).
Proof. intros E. unfold ReadSuccess_file. run_fields. by rewrite E. Qed.

Lemma ReadFailure_file_content st b0 b :
  fs_open (world st) FAILURE_FILE_FULL = Some (b0 :: b) →
  fst (ReadFailure_file st) = Returned tt ∧
  f_list (failure (ledger (snd (ReadFailure_file st))))
  = json_failure (Byte.x7b :: b ++ [Byte.x7d]) (f_list (failure (ledger st))).
Proof. intros E. unfold ReadFailure_file. run_fields. by rewrite E. Qed.

(** A history file that exists and is empty: [b[0]] is out of range. *)
Lemma ReadSuccess_file_empty st :
  fs_open (world st) SUCCESS_FILE_FULL = Some [] →
  fst (ReadSuccess_file st) = Panicked.
Proof. intros E. unfold ReadSuccess_file. run_fields. by rewrite E. Qed.

Lemma ReadFailure_file_empty st :
  fs_open (world st) FAILURE_FILE_FULL = Some [] →
  fst (ReadFailure_file st) = Panicked.
Proof. intros E. unfold ReadFailure_file. run_fields. by rewrite E. Qed.

(** [ReadSuccess] and [ReadFailure] with inheritance against the
    flat-file backend: they return when the file is missing or has
    content, and panic when it is empty and the ledger has to load. *)
Lemma ReadSuccess_flat_file p st :
  p ≠ "mgo" → p ≠ "mysql" →
  match fs_open (world st) SUCCESS_FILE_FULL with
  | Some [] =>
      fst (ReadSuccess p true st)
      = if s_inheritable (success (ledger st)) then Returned tt else Panicked
  | _ => fst (ReadSuccess p true st) = Returned tt
  end.
Proof.
  intros H1 H2.
  destruct (s_inheritable (success (ledger st))) eqn:Hinh.
  { rewrite ReadSuccess_skip by done. by repeat case_match. }
  rewrite ReadSuccess_load by done. unfold ReadSuccess_switch.
  rewrite switch_default by done.
  destruct (fs_open (world st) SUCCESS_FILE_FULL) as [[|b0 b]|] eqn:E.
  - by apply ReadSuccess_file_empty.
  - by eapply ReadSuccess_file_content.
  - by rewrite ReadSuccess_file_missing.
Qed.

Lemma ReadFailure_flat_file p st :
  p ≠ "mgo" → p ≠ "mysql" →
  match fs_open (world st) FAILURE_FILE_FULL with
  | Some [] =>
      fst (ReadFailure p true st)
      = if f_inheritable (failure (ledger st)) then Returned tt else Panicked
  | _ => fst (ReadFailure p true st) = Returned tt
  end.
Proof.
  intros H1 H2.
  destruct (f_inheritable (failure (ledger st))) eqn:Hinh.
  { rewrite ReadFailure_skip by done. by repeat case_match. }
  rewrite ReadFailure_load by done. unfold ReadFailure_switch.
  rewrite switch_default by done.
  destruct (fs_open (world st) FAILURE_FILE_FULL) as [[|b0 b]|] eqn:E.
  - by apply ReadFailure_file_empty.
  - by eapply ReadFailure_file_content.
  - by rewrite ReadFailure_file_missing.
Qed.

(** *** Computations that do not look at the provider *)

Definition reprovide (p : string) (st : St) : St :=
  {| ledger := {| success := success (ledger st);
                  failure := failure (ledger st);
                  provider := p |};
     world := world st;
     trace := trace st |}.

(** [blind m]: [m] neither reads nor writes the recorded provider. *)
Definition blind {A} (m : M A) : Prop :=
  ∀ p st, m (reprovide p st) = (fst (m st), reprovide p (snd (m st))).

Lemma blind_ret {A} (a : A) : blind (ret a).
Proof. done. Qed.

Lemma blind_panic {A} : blind (@panic A).
Proof. done. Qed.

Lemma blind_bind {A B} (m : M A) (k : A → M B) :
  blind m → (∀ a, blind (k a)) → blind (bind m k).
Proof.
  intros Hm Hk p st. unfold bind. rewrite Hm.
  destruct (m st) as [[a|] st1]; simpl; [apply Hk | done].
Qed.

Lemma blind_for_each {A} (l : list A) body :
  (∀ v, blind (body v)) → blind (for_each l body).
Proof.
  intros Hb. induction l as [|v l IH]; simpl;
    [apply blind_ret | by apply blind_bind].
Qed.

Lemma blind_emit e : blind (emit e).
Proof. done. Qed.

Lemma blind_get_world : blind get_world.
Proof. done. Qed.

Lemma blind_put_world w : blind (put_world w).
Proof. done. Qed.

Lemma blind_get_old : blind get_old.
Proof. done. Qed.

Lemma blind_set_old m : blind (set_old m).
Proof. done. Qed.

Lemma blind_get_new : blind get_new.
Proof. done. Qed.

Lemma blind_set_new m : blind (set_new m).
Proof. done. Qed.

Lemma blind_get_success_inheritable : blind get_success_inheritable.
Proof. done. Qed.

Lemma blind_set_success_inheritable b : blind (set_success_inheritable b).
Proof. done. Qed.

Lemma blind_get_list : blind get_list.
Proof. done. Qed.

Lemma blind_set_list m : blind (set_list m).
Proof. done. Qed.

Lemma blind_get_failure_inheritable : blind get_failure_inheritable.
Proof. done. Qed.

Lemma blind_set_failure_inheritable b : blind (set_failure_inheritable b).
Proof. done. Qed.

Lemma blind_patch_braces b : blind (patch_braces b).
Proof. by destruct b. Qed.

Create HintDb blind discriminated.
Hint Resolve blind_ret blind_panic blind_emit blind_get_world blind_put_world
  blind_get_old blind_set_old blind_get_new blind_set_new
  blind_get_success_inheritable blind_set_success_inheritable
  blind_get_list blind_set_list blind_get_failure_inheritable
  blind_set_failure_inheritable blind_patch_braces : blind.

Ltac blind_auto :=
  repeat first
    [ solve [auto with blind]
    | apply blind_bind; [|intros ?]
    | apply blind_for_each; intros ?
    | progress unfold old_insert, list_insert, load_failure, record_write
    | case_match ].

Lemma blind_load_failures l strict n : blind (load_failures l strict n).
Proof.
  revert n. induction l as [|v l IH]; intros n; simpl; [apply blind_ret|].
  destruct v, strict; try apply blind_panic;
    (apply blind_bind; [blind_auto | auto]).
Qed.

Hint Resolve blind_load_failures : blind.





(** *** [Empty] and [UpsertSuccess], in full *)

Lemma Empty_eq st :
  Empty st =
  (Returned tt,
   {| ledger := {| success := {| s_new := ∅; s_old := ∅;
                                 s_inheritable :=
                                   s_inheritable (success (ledger st)) |};
                   failure := {| f_list := ∅;
                                 f_inheritable :=
                                   f_inheritable (failure (ledger st)) |};
                   provider := provider (ledger st) |};
      world := world st;
      trace := trace st ++ [EvLock; EvWrite FSuccessNew; EvWrite FSuccessOld;
                            EvWrite FFailureList; EvUnlock] |}).
Proof. unfold Empty. run_fields. by rewrite <- !app_assoc. Qed.

Lemma UpsertSuccess_fresh r st :
  s_old (success (ledger st)) !! makeUnique r = None →
  s_new (success (ledger st)) !! makeUnique r = None →
  UpsertSuccess r st =
  (Returned true,
   {| ledger := {| success :=
                     {| s_new := <[makeUnique r := true]>
                                   (s_new (success (ledger st)));
                        s_old := s_old (success (ledger st));
                        s_inheritable := s_inheritable (success (ledger st)) |};
                   failure := failure (ledger st);
                   provider := provider (ledger st) |};
      world := world st;
      trace := trace st ++ [EvLock; EvRead FSuccessOld; EvRead FSuccessNew;
                            EvWrite FSuccessNew; EvUnlock] |}).
Proof.
  intros Ho Hn. unfold UpsertSuccess. run_fields. rewrite Ho, Hn.
  simpl. by rewrite <- !app_assoc.
Qed.

Lemma UpsertSuccess_duplicate r st :
  is_Some (s_old (success (ledger st)) !! makeUnique r) ∨
  is_Some (s_new (success (ledger st)) !! makeUnique r) →
  UpsertSuccess r st =
  (Returned false,
   {| ledger := ledger st;
      world := world st;
      trace := trace st ++ [EvLock; EvRead FSuccessOld; EvRead FSuccessNew;
                            EvUnlock] |}).
Proof.
  intros Hdup. unfold UpsertSuccess. run_fields.
  destruct (s_old (success (ledger st)) !! makeUnique r) eqn:Ho,
           (s_new (success (ledger st)) !! makeUnique r) eqn:Hn;
    simpl; try (by rewrite <- !app_assoc).
  destruct Hdup as [[? ?]|[? ?]]; done.
Qed.

(** ** The properties of the ledger *)

(** C3. [UpsertSuccess] twice in succession on a ledger that has the
    record's fingerprint in neither [old] nor [new] returns true, then
    false, and leaves one entry for the fingerprint in the Success Set;
    on any ledger it returns true exactly when the fingerprint is in
    neither set, and a call that returns false leaves the ledger as it
    was. *)
Theorem UpsertSuccess_twice (r : HRecord) (st : St)
    (Hold : s_old (success (ledger st)) !! makeUnique r = None)
    (Hnew : s_new (success (ledger st)) !! makeUnique r = None) :
  let first := UpsertSuccess r st in
  let second := UpsertSuccess r (snd first) in
  (fst first = Returned true ∧
   fst second = Returned false ∧
   ledger (snd second) = ledger (snd first) ∧
   occurrences (makeUnique r) (success (ledger (snd second))) = 1) ∧
  (∀ st' : St,
     (fst (UpsertSuccess r st') = Returned true ↔
      s_old (success (ledger st')) !! makeUnique r = None ∧
      s_new (success (ledger st')) !! makeUnique r = None) ∧
     (fst (UpsertSuccess r st') = Returned false →
      ledger (snd (UpsertSuccess r st')) = ledger st')).
Proof.
  simpl. split.
  - rewrite (UpsertSuccess_fresh r st) by done. simpl.
    rewrite UpsertSuccess_duplicate
      by (right; simpl; rewrite lookup_insert_eq; eauto).
    simpl. repeat split; [].
    unfold occurrences. simpl. by rewrite Hold, lookup_insert_eq.
  - intros st'.
    destruct (s_old (success (ledger st')) !! makeUnique r) eqn:Ho.
    { rewrite UpsertSuccess_duplicate by (left; eauto). simpl.
      split; [split; [done | by intros [? _]] | done]. }
    destruct (s_new (success (ledger st')) !! makeUnique r) eqn:Hn.
    { rewrite UpsertSuccess_duplicate by (right; eauto). simpl.
      split; [split; [done | by intros [_ ?]] | done]. }
    rewrite UpsertSuccess_fresh by done. simpl.
    split; [split; done | done].
Qed.

(** C4. [ReadSuccess] without inheritance returns with [old] and [new]
    empty and the ledger marked not inheritable, whatever the state
    before; and a [ReadSuccess] with inheritance that follows another
    one returns with the Success Set and the stores as they were and
    without a backend read, the two calls together having issued at
    most one. *)
Theorem ReadSuccess_inherit_flag (p p2 : string) (st : St) :
  let cold := ReadSuccess p false st in
  let st1 := snd (ReadSuccess p true st) in
  let again := ReadSuccess p2 true st1 in
  (fst cold = Returned tt ∧
   s_old (success (ledger (snd cold))) = ∅ ∧
   s_new (success (ledger (snd cold))) = ∅ ∧
   s_inheritable (success (ledger (snd cold))) = false) ∧
  (fst again = Returned tt ∧
   success (ledger (snd again)) = success (ledger st1) ∧
   world (snd again) = world st1 ∧
   backend_reads (trace (snd again)) = backend_reads (trace st1) ∧
   backend_reads (trace (snd again)) ≤ backend_reads (trace st) + 1).
Proof.
  cbv zeta. split; [by rewrite ReadSuccess_cold|].
  destruct (ReadSuccess_warm p st) as [Hinh Hreads]. simpl in Hinh, Hreads.
  rewrite (ReadSuccess_skip p2) by done. simpl.
  assert (backend_reads
            (trace (snd (ReadSuccess p true st)) ++
             [EvLock; EvWrite FProvider; EvUnlock; EvRead FSuccessInheritable])
          = backend_reads (trace (snd (ReadSuccess p true st)))) as ->.
  { rewrite backend_reads_app. unfold backend_reads at 2. simpl. lia. }
  done.
Qed.

(** On a ledger that is not marked inheritable and with a provider
    other than the relational store, the load is one backend read. *)
Lemma ReadSuccess_load_reads p st :
  s_inheritable (success (ledger st)) = false →
  p ≠ "mysql" →
  backend_reads (trace (snd (ReadSuccess p true st)))
  = backend_reads (trace st) + 1.
Proof.
  intros Hinh Hp. rewrite ReadSuccess_load by done.
  unfold ReadSuccess_switch.
  assert (String.eqb p "mysql" = false) as -> by by apply String.eqb_neq.
  assert (R : ∀ b t (m : M unit), keeps load_success m →
            backend_reads (trace (snd ((emit (EvBackendRead b t) ;; m)
                                         (armed p st))))
            = backend_reads (trace st) + 1).
  { intros b t m K. unfold bind, emit.
    destruct (K {| ledger := ledger (armed p st); world := world (armed p st);
                   trace := trace (armed p st) ++ [EvBackendRead b t] |})
      as [_ (evs & -> & F)].
    simpl. rewrite !backend_reads_app, (backend_reads_silent evs) by done.
    unfold backend_reads. simpl. lia. }
  destruct (String.eqb p "mgo").
  - apply R. apply keeps_bind; [apply _ | by intros s; reflexivity |].
    intros w. destruct (mgo_find w MGO_DB SUCCESS_FILE); [keeps_auto|].
    apply keeps_bind; [apply _ | | intros ?; keeps_auto].
    apply keeps_for_each; [apply _ | apply _ |].
    intros [id|]; keeps_auto.
  - apply R. apply keeps_bind; [apply _ | by intros s; reflexivity |].
    intros w. destruct (fs_open w SUCCESS_FILE_FULL); keeps_auto.
Qed.

(** After [Empty] the ledger is marked as it was: a [ReadSuccess] with
    inheritance that follows an earlier one and an [Empty] is skipped,
    and the Success Set stays empty. *)
Lemma Empty_then_ReadSuccess (p q : string) (st : St) :
  let st1 := snd (ReadSuccess p true st) in
  let st2 := snd (Empty st1) in
  let r := ReadSuccess q true st2 in
  s_inheritable (success (ledger st2)) = true ∧
  fst r = Returned tt ∧
  s_old (success (ledger (snd r))) = ∅ ∧
  s_new (success (ledger (snd r))) = ∅ ∧
  backend_reads (trace (snd r)) = backend_reads (trace st1).
Proof.
  cbv zeta. destruct (ReadSuccess_warm p st) as [Hinh _]. simpl in Hinh.
  set (st1 := snd (ReadSuccess p true st)) in *. clearbody st1.
  rewrite Empty_eq. simpl. rewrite ReadSuccess_skip by exact Hinh. simpl.
  rewrite Hinh. repeat split; [].
  rewrite <- app_assoc, backend_reads_app. unfold backend_reads at 2.
  simpl. lia.
Qed.

(** *** The events of one call *)

Definition events_of {A} (m : M A) (st : St) : list Event :=
  drop (length (trace st)) (trace (snd (m st))).

Lemma events_of_eq {A} (m : M A) st evs :
  trace (snd (m st)) = trace st ++ evs → events_of m st = evs.
Proof. intros E. unfold events_of. by rewrite E, drop_app_length. Qed.

Lemma guarded_after_unlock e rest :
  touches_sets e = true →
  guarded false ([EvLock; EvWrite FProvider; EvUnlock] ++ e :: rest) = false.
Proof. intros He. destruct e; simpl in *; try done; by rewrite He. Qed.



Lemma Flush_with_eq flush p st :
  Flush_with flush p st =
  (let* r := flush p in
   emit (EvLogInfo None) ;;
   if snd r then emit EvLogError else emit (EvLogInfo (Some (fst r))))
    (provided p st).
Proof. unfold Flush_with, bind at 1. by rewrite record_provider_eq. Qed.

(** What the lock of an operation that takes a provider covers: the
    three opening lines, after which comes an access to the Success Set
    or the Failure Index and no further lock event. *)
Definition unlocked_access (evs : list Event) : Prop :=
  ∃ e rest,
    evs = [EvLock; EvWrite FProvider; EvUnlock] ++ e :: rest ∧
    touches_sets e = true ∧
    Forall (λ e', is_lock_event e' = false) rest.

Lemma unlocked_access_not_guarded evs :
  unlocked_access evs → guarded false evs = false.
Proof. intros (e & rest & -> & He & _). by apply guarded_after_unlock. Qed.

Lemma ReadSuccess_events p inherit st :
  unlocked_access (events_of (ReadSuccess p inherit) st).
Proof.
  destruct inherit.
  - destruct (s_inheritable (success (ledger st))) eqn:Hinh.
    + exists (EvRead FSuccessInheritable), [].
      split; [|by split]. apply events_of_eq.
      by rewrite ReadSuccess_skip.
    + destruct (ReadSuccess_switch_post p (armed p st))
        as [_ (evs & E & F & _)].
      exists (EvRead FSuccessInheritable),
        ([EvWrite FSuccessOld; EvWrite FSuccessNew;
          EvWrite FSuccessInheritable] ++ evs).
      split; [|split; [done|by apply Forall_app; split; [repeat constructor|]]].
      apply events_of_eq. rewrite ReadSuccess_load, E by done.
      unfold armed. simpl. by rewrite <- app_assoc.
  - exists (EvWrite FSuccessOld),
      [EvWrite FSuccessNew; EvWrite FSuccessInheritable].
    split; [|split; [done | by repeat constructor]].
    apply events_of_eq. by rewrite ReadSuccess_cold.
Qed.

Lemma ReadFailure_events p inherit st :
  unlocked_access (events_of (ReadFailure p inherit) st).
Proof.
  destruct inherit.
  - destruct (f_inheritable (failure (ledger st))) eqn:Hinh.
    + exists (EvRead FFailureInheritable), [].
      split; [|by split]. apply events_of_eq.
      by rewrite ReadFailure_skip.
    + destruct (ReadFailure_switch_post p (armed_failure p st))
        as [_ (evs & E & F & _)].
      exists (EvRead FFailureInheritable),
        ([EvWrite FFailureList; EvWrite FFailureInheritable] ++ evs).
      split; [|split; [done|by apply Forall_app; split; [repeat constructor|]]].
      apply events_of_eq. rewrite ReadFailure_load, E by done.
      unfold armed_failure. simpl. by rewrite <- app_assoc.
  - exists (EvWrite FFailureList), [EvWrite FFailureInheritable].
    split; [|split; [done | by repeat constructor]].
    apply events_of_eq. by rewrite ReadFailure_cold.
Qed.

(** C8, as the code has it. [Empty] holds the lock of the ledger for
    the whole of its access to the Success Set and the Failure Index.
    [ReadSuccess] and [ReadFailure] hold it around the assignment of
    the provider only: they release it, then access the Success Set or
    the Failure Index, and do not take it again.  [FlushSuccess] and
    [FlushFailure] release it after the assignment of the provider and
    before they call the flush: whatever the flush does, it starts in
    the state the three opening lines leave, the lock released. *)
Theorem lock_covers_provider_only (p : string) (inherit : bool) (st : St) :
  guarded false (events_of Empty st) = true ∧
  Forall (λ op : M unit, unlocked_access (events_of op st))
    [ReadSuccess p inherit; ReadFailure p inherit] ∧
  (FlushSuccess p = Flush_with success_flush p ∧
   FlushFailure p = Flush_with failure_flush p) ∧
  (∀ flush : string → M (nat * bool),
     trace (provided p st)
     = trace st ++ [EvLock; EvWrite FProvider; EvUnlock] ∧
     Flush_with flush p st
     = (let* r := flush p in
        emit (EvLogInfo None) ;;
        if snd r then emit EvLogError else emit (EvLogInfo (Some (fst r))))
         (provided p st)).
Proof.
  split; [|split; [|split; [done|]]].
  - erewrite events_of_eq by (by rewrite Empty_eq). done.
  - repeat apply Forall_cons_2; [apply ReadSuccess_events
      | apply ReadFailure_events | apply Forall_nil_2].
  - intros flush. split; [done | apply Flush_with_eq].
Qed.


(** ** Further properties of the ledger *)

(** *** The Failure Index and the flag *)

Lemma ReadFailure_warm p st :
  let st1 := snd (ReadFailure p true st) in
  f_inheritable (failure (ledger st1)) = true ∧
  backend_reads (trace st1) ≤ backend_reads (trace st) + 1.
Proof.
  simpl. destruct (f_inheritable (failure (ledger st))) eqn:Hinh.
  - rewrite ReadFailure_skip by done. simpl. split; [done|].
    rewrite backend_reads_app. unfold backend_reads at 2. simpl. lia.
  - rewrite ReadFailure_load by done.
    destruct (ReadFailure_switch_post p (armed_failure p st))
      as [(_&_&_&Hi) (evs & E & _ & Hr)].
    split; [by rewrite Hi|].
    rewrite E. unfold armed_failure. simpl. rewrite !backend_reads_app.
    unfold backend_reads at 2. simpl. lia.
Qed.

(** X1. [ReadFailure] without inheritance returns with the Failure
    Index empty and the ledger marked not inheritable for failures,
    whatever the state before; a [ReadFailure] with inheritance that
    follows another one returns with the Failure Index and the stores
    as they were and without a backend read, the two calls together
    having issued at most one. *)
Theorem ReadFailure_inherit_flag (p p2 : string) (st : St) :
  let cold := ReadFailure p false st in
  let st1 := snd (ReadFailure p true st) in
  let again := ReadFailure p2 true st1 in
  (fst cold = Returned tt ∧
   f_list (failure (ledger (snd cold))) = ∅ ∧
   f_inheritable (failure (ledger (snd cold))) = false ∧
   backend_reads (trace (snd cold)) = backend_reads (trace st)) ∧
  (fst again = Returned tt ∧
   failure (ledger (snd again)) = failure (ledger st1) ∧
   world (snd again) = world st1 ∧
   backend_reads (trace (snd again)) = backend_reads (trace st1) ∧
   backend_reads (trace (snd again)) ≤ backend_reads (trace st) + 1).
Proof.
  cbv zeta. split.
  { rewrite ReadFailure_cold. simpl. repeat split; [].
    rewrite backend_reads_app. unfold backend_reads at 2. simpl. lia. }
  destruct (ReadFailure_warm p st) as [Hinh Hreads]. simpl in Hinh, Hreads.
  rewrite (ReadFailure_skip p2) by done. simpl.
  assert (backend_reads
            (trace (snd (ReadFailure p true st)) ++
             [EvLock; EvWrite FProvider; EvUnlock; EvRead FFailureInheritable])
          = backend_reads (trace (snd (ReadFailure p true st)))) as ->.
  { rewrite backend_reads_app. unfold backend_reads at 2. simpl. lia. }
  done.
Qed.

(** What [ReadSuccess] leaves alone, and [ReadFailure]. *)
Lemma ReadSuccess_frame p inherit st :
  failure (ledger (snd (ReadSuccess p inherit st))) = failure (ledger st) ∧
  world (snd (ReadSuccess p inherit st)) = world st ∧
  provider (ledger (snd (ReadSuccess p inherit st))) = p.
Proof.
  destruct inherit; [|by rewrite ReadSuccess_cold].
  destruct (s_inheritable (success (ledger st))) eqn:Hinh.
  - by rewrite ReadSuccess_skip.
  - rewrite ReadSuccess_load by done.
    by destruct (ReadSuccess_switch_post p (armed p st))
      as [(Hw & Hf & Hp & _) _].
Qed.

Lemma ReadFailure_frame p inherit st :
  success (ledger (snd (ReadFailure p inherit st))) = success (ledger st) ∧
  world (snd (ReadFailure p inherit st)) = world st ∧
  provider (ledger (snd (ReadFailure p inherit st))) = p.
Proof.
  destruct inherit; [|by rewrite ReadFailure_cold].
  destruct (f_inheritable (failure (ledger st))) eqn:Hinh.
  - by rewrite ReadFailure_skip.
  - rewrite ReadFailure_load by done.
    by destruct (ReadFailure_switch_post p (armed_failure p st))
      as [(Hw & Hs & Hp & _) _].
Qed.

(** X2. The two reads keep to their half of the ledger.  Whatever the
    provider, the flag and the state before, and whether it returns or
    panics, [ReadSuccess] leaves the Failure Index, its flag and the
    stores as they were, [ReadFailure] leaves the Success Set, its flag
    and the stores as they were, and each leaves the provider it was
    given as the recorded one. *)
Theorem reads_keep_the_other_half (p : string) (inherit : bool) (st : St) :
  (let st' := snd (ReadSuccess p inherit st) in
   failure (ledger st') = failure (ledger st) ∧
   world st' = world st ∧
   provider (ledger st') = p) ∧
  (let st' := snd (ReadFailure p inherit st) in
   success (ledger st') = success (ledger st) ∧
   world st' = world st ∧
   provider (ledger st') = p).
Proof.
  cbv zeta. split; [apply ReadSuccess_frame | apply ReadFailure_frame].
Qed.

(** *** What a read depends on *)

(** Two states with the same stores that agree under a view of the
    ledger. *)
Definition same_on {X} (view : Ledger → X) (st st' : St) : Prop :=
  view (ledger st) = view (ledger st') ∧ world st = world st'.

(** [local_on view m]: the outcome of [m] and what it leaves under the
    view depend on the stores and on the ledger under the view only. *)
Definition local_on {X A} (view : Ledger → X) (m : M A) : Prop :=
  ∀ st st', same_on view st st' →
    fst (m st) = fst (m st') ∧ same_on view (snd (m st)) (snd (m st')).

Lemma local_ret {X A} (view : Ledger → X) (a : A) : local_on view (ret a).
Proof. by intros st st' Hs. Qed.

Lemma local_panic {X A} (view : Ledger → X) : local_on view (@panic A).
Proof. by intros st st' Hs. Qed.

Lemma local_bind {X A B} (view : Ledger → X) (m : M A) (k : A → M B) :
  local_on view m → (∀ a, local_on view (k a)) → local_on view (bind m k).
Proof.
  intros Hm Hk st st' Hs. unfold bind. destruct (Hm st st' Hs) as [Hf Hs'].
  destruct (m st) as [[a|] st1], (m st') as [[a'|] st1']; simpl in *;
    simplify_eq; [by apply Hk | done].
Qed.

Lemma local_for_each {X A} (view : Ledger → X) (l : list A) body :
  (∀ v, local_on view (body v)) → local_on view (for_each l body).
Proof.
  intros Hb. induction l as [|v l IH]; simpl;
    [apply local_ret | by apply local_bind].
Qed.

Lemma local_emit {X} (view : Ledger → X) e : local_on view (emit e).
Proof. by intros st st' Hs. Qed.

Lemma local_get_world {X} (view : Ledger → X) : local_on view get_world.
Proof. intros st st' [? Hw]. unfold get_world. simpl. by rewrite Hw. Qed.

Lemma local_patch_braces {X} (view : Ledger → X) b :
  local_on view (patch_braces b).
Proof. destruct b; [apply local_panic | apply local_ret]. Qed.

Lemma local_record_provider_success p : local_on success (record_provider p).
Proof. by intros st st' [Hv Hw]. Qed.

Lemma local_record_provider_failure p : local_on failure (record_provider p).
Proof. by intros st st' [Hv Hw]. Qed.

Lemma local_get_old : local_on success get_old.
Proof. intros st st' [Hv Hw]. unfold get_old. run_fields. by rewrite Hv. Qed.

Lemma local_set_old m : local_on success (set_old m).
Proof.
  intros st st' [Hv Hw]. unfold same_on. run_fields. by rewrite Hv, Hw.
Qed.

Lemma local_set_new m : local_on success (set_new m).
Proof.
  intros st st' [Hv Hw]. unfold same_on. run_fields. by rewrite Hv, Hw.
Qed.

Lemma local_get_success_inheritable : local_on success get_success_inheritable.
Proof.
  intros st st' [Hv Hw]. unfold get_success_inheritable. run_fields.
  by rewrite Hv.
Qed.

Lemma local_set_success_inheritable b :
  local_on success (set_success_inheritable b).
Proof.
  intros st st' [Hv Hw]. unfold same_on. run_fields. by rewrite Hv, Hw.
Qed.

Lemma local_get_list : local_on failure get_list.
Proof. intros st st' [Hv Hw]. unfold get_list. run_fields. by rewrite Hv. Qed.

Lemma local_set_list m : local_on failure (set_list m).
Proof.
  intros st st' [Hv Hw]. unfold same_on. run_fields. by rewrite Hv, Hw.
Qed.

Lemma local_get_failure_inheritable : local_on failure get_failure_inheritable.
Proof.
  intros st st' [Hv Hw]. unfold get_failure_inheritable. run_fields.
  by rewrite Hv.
Qed.

Lemma local_set_failure_inheritable b :
  local_on failure (set_failure_inheritable b).
Proof.
  intros st st' [Hv Hw]. unfold same_on. run_fields. by rewrite Hv, Hw.
Qed.

Create HintDb local discriminated.
Hint Resolve local_ret local_panic local_emit local_get_world
  local_patch_braces local_record_provider_success
  local_record_provider_failure local_get_old local_set_old local_set_new
  local_get_success_inheritable local_set_success_inheritable
  local_get_list local_set_list local_get_failure_inheritable
  local_set_failure_inheritable : local.

Ltac local_auto :=
  repeat first
    [ solve [auto with local]
    | apply local_bind; [|intros ?]
    | apply local_for_each; intros ?
    | progress unfold old_insert, list_insert, load_failure
    | case_match ].

Lemma local_load_failures l strict n :
  local_on failure (load_failures l strict n).
Proof.
  revert n. induction l as [|v l IH]; intros n; simpl; [apply local_ret|].
  destruct v, strict; try apply local_panic;
    (apply local_bind; [local_auto | auto]).
Qed.

Hint Resolve local_load_failures : local.

Lemma local_ReadSuccess p inherit : local_on success (ReadSuccess p inherit).
Proof.
  unfold ReadSuccess, ReadSuccess_switch, ReadSuccess_mgo, ReadSuccess_mysql,
    ReadSuccess_file.
  local_auto.
Qed.

Lemma local_ReadFailure p inherit : local_on failure (ReadFailure p inherit).
Proof.
  unfold ReadFailure, ReadFailure_switch, ReadFailure_mgo, ReadFailure_mysql,
    ReadFailure_file.
  local_auto.
Qed.

(** X17. The two reads do not depend on each other.  Whether a read
    returns or panics, and the half of the ledger it leaves, are the
    same whether or not the other read was made before it, with
    whatever provider and flag; so a [ReadSuccess] and a [ReadFailure]
    made in either order leave the same Success Set, the same Failure
    Index and the same stores. *)
Theorem reads_in_either_order (p q : string) (i j : bool) (st : St) :
  let s_first := ReadSuccess p i st in
  let f_first := ReadFailure q j st in
  let f_second := ReadFailure q j (snd s_first) in
  let s_second := ReadSuccess p i (snd f_first) in
  (fst f_second = fst f_first ∧ fst s_second = fst s_first) ∧
  success (ledger (snd f_second)) = success (ledger (snd s_second)) ∧
  failure (ledger (snd f_second)) = failure (ledger (snd s_second)) ∧
  world (snd f_second) = world (snd s_second).
Proof.
  cbv zeta.
  destruct (ReadSuccess_frame p i st) as (Hsf & Hsw & _).
  destruct (ReadFailure_frame q j st) as (Hfs & Hfw & _).
  destruct (local_ReadFailure q j (snd (ReadSuccess p i st)) st)
    as (Hf1 & Hf2 & Hf3); [by split|].
  destruct (local_ReadSuccess p i (snd (ReadFailure q j st)) st)
    as (Hs1 & Hs2 & Hs3); [by split|].
  destruct (ReadFailure_frame q j (snd (ReadSuccess p i st))) as (Ha & _).
  destruct (ReadSuccess_frame p i (snd (ReadFailure q j st))) as (Hb & _).
  split; [done|]. split; [by rewrite Ha, Hs2|].
  split; [by rewrite Hf2, Hb | by rewrite Hf3, Hs3, Hfw, Hsw].
Qed.

(** *** What a load from the two databases leaves *)

Lemma bind_returned {A B} (m : M A) (k : A → M B) st a :
  fst (m st) = Returned a → bind m k st = k a (snd (m st)).
Proof. unfold bind. destruct (m st) as [[a'|] st1]; simpl; by intros [= ->]. Qed.

Lemma bind_panicked {A B} (m : M A) (k : A → M B) st :
  fst (m st) = Panicked → bind m k st = (Panicked, snd (m st)).
Proof. unfold bind. by destruct (m st) as [[a'|] st1]. Qed.

(** The map a run of [old[id] = true] over [ids] leaves. *)
Definition insert_all (ids : list string) (m : gmap string bool)
    : gmap string bool :=
  foldl (λ m id, <[id := true]> m) m ids.

Lemma insert_all_lookup ids m k :
  insert_all ids m !! k = if decide (k ∈ ids) then Some true else m !! k.
Proof.
  unfold insert_all. revert m.
  induction ids as [|id ids IH]; intros m; cbn [foldl].
  - by rewrite decide_False by apply not_elem_of_nil.
  - rewrite IH. destruct (decide (k ∈ ids)) as [Hin|Hin].
    + by rewrite decide_True by by right.
    + destruct (decide (k = id)) as [->|Hne].
      * by rewrite lookup_insert_eq, decide_True by by left.
      * rewrite lookup_insert_ne by done.
        rewrite decide_False; [done|]. by intros [?|?]%elem_of_cons.
Qed.

Lemma old_insert_eq id st :
  fst (old_insert id st) = Returned tt ∧
  s_old (success (ledger (snd (old_insert id st))))
  = <[id := true]> (s_old (success (ledger st))).
Proof. by unfold old_insert; run_fields. Qed.

(** The loop of the document store: the ids before the first document
    whose [_id] is not a string go into [old]. *)
Lemma mgo_ids_loop ids tail st :
  ∃ st1,
    for_each ((Some <$> ids) ++ tail)
      (λ v : option string,
         match v with Some id => old_insert id | None => panic end) st
    = for_each tail
        (λ v : option string,
           match v with Some id => old_insert id | None => panic end) st1 ∧
    s_old (success (ledger st1)) = insert_all ids (s_old (success (ledger st))) ∧
    load_success st st1.
Proof.
  revert st. induction ids as [|id ids IH]; intros st.
  - exists st. by repeat split.
  - destruct (old_insert_eq id st) as [Hr Ho].
    destruct (IH (snd (old_insert id st))) as (st1 & E & Hold & Hl).
    exists st1. split; [|split].
    + cbn [fmap list_fmap app for_each].
      by rewrite (bind_returned _ _ _ tt).
    + by rewrite Hold, Ho.
    + etrans; [apply old_insert_keeps | done].
Qed.

(** The loop of the relational store: every row goes into [old], a row
    that does not scan under the empty string. *)
Lemma mysql_rows_loop rows st :
  ∃ st1,
    for_each rows
      (λ r : option string,
         old_insert (match r with Some id => id | None => "" end)) st
    = (Returned tt, st1) ∧
    s_old (success (ledger st1))
    = insert_all (default "" <$> rows) (s_old (success (ledger st))) ∧
    load_success st st1.
Proof.
  revert st. induction rows as [|r rows IH]; intros st.
  - exists st. by repeat split.
  - destruct (old_insert_eq (default "" r) st) as [Hr Ho].
    destruct (IH (snd (old_insert (default "" r) st))) as (st1 & E & Hold & Hl).
    exists st1. split; [|split].
    + cbn [for_each].
      change (match r with Some id => id | None => "" end) with (default "" r).
      by rewrite (bind_returned _ _ _ tt).
    + by rewrite Hold, Ho.
    + etrans; [apply old_insert_keeps | done].
Qed.

Lemma ReadSuccess_mgo_docs st docs :
  mgo_find (world st) MGO_DB SUCCESS_FILE = MgoDocs docs →
  ReadSuccess_mgo st
  = (for_each docs
       (λ v : option string,
          match v with Some id => old_insert id | None => panic end) ;;
     let* m := get_old in emit (EvLogInfo (Some (size m))))
      {| ledger := ledger st; world := world st;
         trace := trace st ++ [EvBackendRead Mgo SUCCESS_FILE] |}.
Proof.
  intros E. unfold ReadSuccess_mgo.
  rewrite (bind_returned _ _ _ tt) by done.
  rewrite (bind_returned _ _ _ (world st)) by done.
  simpl. by rewrite E.
Qed.

(** X3. [ReadSuccess("mgo", true)] on a ledger that has to load, the
    document store answering with documents: the ids of the documents
    before the first one whose [_id] is not a string are exactly the
    keys of [old], each mapped to true, [new] is empty and the ledger
    is marked inheritable; the call returns when every [_id] is a
    string and panics at the first that is not, with what preceded it
    loaded. *)
Theorem ReadSuccess_mgo_loads (ids : list string) (tail : list (option string))
    (st : St)
    (Hcold : s_inheritable (success (ledger st)) = false)
    (Hdocs : mgo_find (world st) MGO_DB SUCCESS_FILE
             = MgoDocs ((Some <$> ids) ++ tail))
    (Htail : tail = [] ∨ ∃ rest, tail = None :: rest) :
  let r := ReadSuccess "mgo" true st in
  fst r = match tail with [] => Returned tt | _ :: _ => Panicked end ∧
  (∀ k, s_old (success (ledger (snd r))) !! k
        = if decide (k ∈ ids) then Some true else None) ∧
  s_new (success (ledger (snd r))) = ∅ ∧
  s_inheritable (success (ledger (snd r))) = true.
Proof.
  cbv zeta. rewrite ReadSuccess_load by done.
  change (ReadSuccess_switch "mgo") with ReadSuccess_mgo.
  rewrite (ReadSuccess_mgo_docs (armed "mgo" st) _ Hdocs).
  match goal with |- context [bind _ _ ?s] => set (st0 := s) end.
  destruct (mgo_ids_loop ids tail st0) as (st1 & E & Hold & [F _]).
  destruct F as (_ & _ & _ & Hnew & Hinh).
  assert (Hk : ∀ k, s_old (success (ledger st1)) !! k
                    = if decide (k ∈ ids) then Some true else None).
  { intros k. by rewrite Hold, insert_all_lookup. }
  destruct Htail as [->|[rest ->]]; cbn [for_each] in E.
  - rewrite (bind_returned _ _ _ tt) by by rewrite E.
    rewrite E. by run_fields.
  - rewrite bind_panicked by by rewrite E.
    by rewrite E.
Qed.

(** X4. [ReadSuccess("mysql", true)] on a ledger that has to load, the
    database answering with rows: the call returns, the keys of [old]
    are exactly the ids of the rows, each mapped to true, where a row
    on which [Scan] fails counts under the empty string; [new] is
    empty and the ledger is marked inheritable. *)
Theorem ReadSuccess_mysql_loads (rows : list (option string)) (st : St)
    (Hcold : s_inheritable (success (ledger st)) = false)
    (Hdb : mysql_db (world st) = true)
    (Hrows : mysql_select_all (world st) ("`" +:+ SUCCESS_FILE +:+ "`")
             = Some rows) :
  let r := ReadSuccess "mysql" true st in
  fst r = Returned tt ∧
  (∀ k, s_old (success (ledger (snd r))) !! k
        = if decide (k ∈ default "" <$> rows) then Some true else None) ∧
  s_new (success (ledger (snd r))) = ∅ ∧
  s_inheritable (success (ledger (snd r))) = true.
Proof.
  cbv zeta. rewrite ReadSuccess_load by done.
  change (ReadSuccess_switch "mysql") with ReadSuccess_mysql.
  unfold ReadSuccess_mysql.
  rewrite (bind_returned _ _ _ (world st)) by done.
  change (world (snd (get_world (armed "mysql" st)))) with (world st).
  rewrite Hdb. cbn [negb].
  rewrite (bind_returned _ _ _ tt) by done. rewrite Hrows.
  match goal with |- context [bind _ _ ?s] => set (st0 := s) end.
  destruct (mysql_rows_loop rows st0) as (st1 & E & Hold & [F _]).
  destruct F as (_ & _ & _ & Hnew & Hinh).
  assert (Hk : ∀ k, s_old (success (ledger st1)) !! k
                    = if decide (k ∈ default "" <$> rows)
                      then Some true else None).
  { intros k. by rewrite Hold, insert_all_lookup. }
  rewrite (bind_returned _ _ _ tt) by by rewrite E.
  rewrite E. by run_fields.
Qed.

(** *** A read that fails *)

(** The store the provider selects does not answer for the success
    records: the document store returns an error, the database does not
    connect or its select fails, the history file does not open. *)
Definition success_read_fails (p : string) (w : World) : Prop :=
  if String.eqb p "mgo" then mgo_find w MGO_DB SUCCESS_FILE = MgoErr
  else if String.eqb p "mysql" then
    mysql_db w = false ∨
    mysql_select_all w ("`" +:+ SUCCESS_FILE +:+ "`") = None
  else fs_open w SUCCESS_FILE_FULL = None.

(** Likewise for the failure records. *)
Definition failure_read_fails (p : string) (w : World) : Prop :=
  if String.eqb p "mgo" then mgo_error w = true
  else if String.eqb p "mysql" then
    mysql_db w = false ∨
    mysql_select_all w ("`" +:+ FAILURE_FILE +:+ "`") = None
  else fs_open w FAILURE_FILE_FULL = None.

(** The state with other stores behind it. *)
Definition with_world (w : World) (st : St) : St :=
  {| ledger := ledger st; world := w; trace := trace st |}.

(** X5. A read of the success records that fails is not fatal and is
    not retried.  [ReadSuccess] with inheritance on a ledger that has
    to load, against a store that does not answer, returns with [old]
    and [new] empty and the ledger marked inheritable; a later
    [ReadSuccess] with inheritance, whatever its provider and whatever
    the stores hold by then, issues no backend read and leaves [old]
    empty. *)
Theorem ReadSuccess_failed_read (p : string) (st : St)
    (Hcold : s_inheritable (success (ledger st)) = false)
    (Hfail : success_read_fails p (world st)) :
  let r := ReadSuccess p true st in
  (fst r = Returned tt ∧
   s_old (success (ledger (snd r))) = ∅ ∧
   s_new (success (ledger (snd r))) = ∅ ∧
   s_inheritable (success (ledger (snd r))) = true) ∧
  (∀ (q : string) (w : World),
     let r2 := ReadSuccess q true (with_world w (snd r)) in
     fst r2 = Returned tt ∧
     s_old (success (ledger (snd r2))) = ∅ ∧
     backend_reads (trace (snd r2)) = backend_reads (trace (snd r))).
Proof.
  cbv zeta.
  assert (R : fst (ReadSuccess p true st) = Returned tt ∧
              success (ledger (snd (ReadSuccess p true st)))
              = {| s_new := ∅; s_old := ∅; s_inheritable := true |}).
  { rewrite ReadSuccess_load by done.
    unfold success_read_fails in Hfail. unfold ReadSuccess_switch.
    destruct (String.eqb p "mgo"); [|destruct (String.eqb p "mysql")].
    - unfold ReadSuccess_mgo. run_fields. by rewrite Hfail.
    - unfold ReadSuccess_mysql. run_fields.
      destruct (mysql_db (world st)); simpl; [|done].
      destruct Hfail as [?|Hfail]; [done|]. by rewrite Hfail.
    - by rewrite ReadSuccess_file_missing. }
  destruct R as [Hr Hs]. split; [by rewrite Hs|].
  intros q w. rewrite ReadSuccess_skip by (simpl; by rewrite Hs). simpl.
  rewrite Hs. repeat split; [].
  rewrite backend_reads_app. unfold backend_reads at 2. simpl. lia.
Qed.

(** X6. A read of the failure records that fails, likewise:
    [ReadFailure] with inheritance returns with the Failure Index
    empty and the ledger marked inheritable for failures, and a later
    [ReadFailure] with inheritance issues no backend read and leaves
    the index empty. *)
Theorem ReadFailure_failed_read (p : string) (st : St)
    (Hcold : f_inheritable (failure (ledger st)) = false)
    (Hfail : failure_read_fails p (world st)) :
  let r := ReadFailure p true st in
  (fst r = Returned tt ∧
   f_list (failure (ledger (snd r))) = ∅ ∧
   f_inheritable (failure (ledger (snd r))) = true) ∧
  (∀ (q : string) (w : World),
     let r2 := ReadFailure q true (with_world w (snd r)) in
     fst r2 = Returned tt ∧
     f_list (failure (ledger (snd r2))) = ∅ ∧
     backend_reads (trace (snd r2)) = backend_reads (trace (snd r))).
Proof.
  cbv zeta.
  assert (R : fst (ReadFailure p true st) = Returned tt ∧
              failure (ledger (snd (ReadFailure p true st)))
              = {| f_list := ∅; f_inheritable := true |}).
  { rewrite ReadFailure_load by done.
    unfold failure_read_fails in Hfail. unfold ReadFailure_switch.
    destruct (String.eqb p "mgo"); [|destruct (String.eqb p "mysql")].
    - unfold ReadFailure_mgo. run_fields. by rewrite Hfail.
    - unfold ReadFailure_mysql. run_fields.
      destruct (mysql_db (world st)); simpl; [|done].
      destruct Hfail as [?|Hfail]; [done|]. by rewrite Hfail.
    - by rewrite ReadFailure_file_missing. }
  destruct R as [Hr Hs]. split; [by rewrite Hs|].
  intros q w. rewrite ReadFailure_skip by (simpl; by rewrite Hs). simpl.
  rewrite Hs. repeat split; [].
  rewrite backend_reads_app. unfold backend_reads at 2. simpl. lia.
Qed.

(** *** The history files *)

(** X7. What the decoder is given.  With a provider that selects the
    flat-file backend and history files that have content,
    [ReadSuccess] and [ReadFailure] with inheritance on a ledger that
    has to load return, and the Success Set and the Failure Index are
    what the decoder leaves of the empty map when it is given the
    content of the file with its first byte replaced by an opening
    brace, whatever that byte was, and a closing brace appended. *)
Theorem flat_file_decoded (p : string) (s0 f0 : Byte.byte)
    (s f : list Byte.byte) (st : St)
    (Hmgo : p ≠ "mgo") (Hmysql : p ≠ "mysql")
    (Hcold : s_inheritable (success (ledger st)) = false)
    (Hcold' : f_inheritable (failure (ledger st)) = false)
    (Hs : fs_open (world st) SUCCESS_FILE_FULL = Some (s0 :: s))
    (Hf : fs_open (world st) FAILURE_FILE_FULL = Some (f0 :: f)) :
  (let r := ReadSuccess p true st in
   fst r = Returned tt ∧
   s_old (success (ledger (snd r)))
   = json_success (Byte.x7b :: s ++ [Byte.x7d]) ∅ ∧
   s_new (success (ledger (snd r))) = ∅) ∧
  (let r := ReadFailure p true st in
   fst r = Returned tt ∧
   f_list (failure (ledger (snd r)))
   = json_failure (Byte.x7b :: f ++ [Byte.x7d]) ∅).
Proof.
  cbv zeta. split.
  - rewrite ReadSuccess_load by done. unfold ReadSuccess_switch.
    rewrite switch_default by done.
    destruct (ReadSuccess_file_content (armed p st) s0 s Hs) as [Hr Ho].
    destruct (ReadSuccess_file_post (armed p st)) as [(_&_&_&Hn&_) _].
    by rewrite Hr, Ho, Hn.
  - rewrite ReadFailure_load by done. unfold ReadFailure_switch.
    rewrite switch_default by done.
    by destruct (ReadFailure_file_content (armed_failure p st) f0 f Hf)
      as [-> ->].
Qed.

(** *** What a load of the failure records leaves *)

(** [listed m sp f]: the failure [f] is filed under the spider [sp]. *)
Definition listed (m : gmap string (gmap string bool)) (sp f : string) : Prop :=
  ∃ inner, m !! sp = Some inner ∧ inner !! f = Some true.

(** [f] deserializes to a request of the spider [sp]. *)
Definition request_of (sp f : string) : Prop :=
  ∃ req, UnSerialize f = Some req ∧ GetSpiderName req = sp.

Lemma list_insert_eq sp f st :
  fst (list_insert sp f st) = Returned tt ∧
  f_list (failure (ledger (snd (list_insert sp f st))))
  = <[sp := <[f := true]> (default ∅ (f_list (failure (ledger st)) !! sp))]>
      (f_list (failure (ledger st))).
Proof. by unfold list_insert; run_fields. Qed.

Lemma listed_insert m sp f sp' f' :
  listed (<[sp := <[f := true]> (default ∅ (m !! sp))]> m) sp' f'
  ↔ (sp' = sp ∧ f' = f) ∨ listed m sp' f'.
Proof.
  unfold listed. split.
  - intros (inner & Hl & Hi). destruct (decide (sp' = sp)) as [->|Hsp].
    + rewrite lookup_insert_eq in Hl. injection Hl as <-.
      destruct (decide (f' = f)) as [->|Hf]; [by left|].
      rewrite lookup_insert_ne in Hi by done. right.
      destruct (m !! sp) as [i|]; simpl in Hi; [by exists i|].
      by rewrite lookup_empty in Hi.
    + rewrite lookup_insert_ne in Hl by done. right. by exists inner.
  - intros [[-> ->]|(inner & Hl & Hi)].
    + eexists. by rewrite !lookup_insert_eq.
    + destruct (decide (sp' = sp)) as [->|Hsp].
      * eexists. rewrite lookup_insert_eq. split; [done|].
        rewrite Hl. simpl.
        destruct (decide (f' = f)) as [->|Hf];
          [by rewrite lookup_insert_eq | by rewrite lookup_insert_ne].
      * exists inner. by rewrite lookup_insert_ne.
Qed.

Lemma load_failure_eq f st :
  ∃ n st1,
    load_failure f st = (Returned n, st1) ∧
    load_failure_rel st st1 ∧
    n = (if decide (is_Some (UnSerialize f)) then 1 else 0) ∧
    ∀ sp' f', listed (f_list (failure (ledger st1))) sp' f'
              ↔ listed (f_list (failure (ledger st))) sp' f'
                ∨ (f' = f ∧ request_of sp' f').
Proof.
  pose proof (load_failure_keeps f st) as K.
  unfold load_failure in *. unfold request_of.
  destruct (UnSerialize f) as [req|] eqn:E.
  - destruct (list_insert_eq (GetSpiderName req) f st) as [Hr Hl].
    rewrite (bind_returned _ _ _ tt) in * by done.
    eexists _, _. split; [reflexivity|]. split; [exact K|].
    split; [done|]. intros sp' f'. unfold ret. cbn [snd]. rewrite Hl.
    rewrite listed_insert. split.
    + intros [[-> ->]|?]; [right|by left]. split; [done|]. by exists req.
    + intros [?|[-> (req' & Hu & Hs)]]; [by right|]. left.
      rewrite E in Hu. by injection Hu as <-.
  - eexists _, _. split; [reflexivity|]. split; [exact K|].
    split; [done|]. intros sp' f'. unfold ret. simpl.
    split; [by left|]. intros [?|[-> (req' & Hu & _)]]; [done|].
    by rewrite E in Hu.
Qed.

(** The loop of the relational store over the failure records: the
    rows that deserialize are filed under their spider and counted. *)
Lemma load_failures_listed rows n st :
  ∃ st1,
    load_failures rows false n st
    = (Returned
         (n + length (filter (λ r, is_Some (UnSerialize (default "" r))) rows)),
       st1) ∧
    load_failure_rel st st1 ∧
    ∀ sp f, listed (f_list (failure (ledger st1))) sp f
            ↔ listed (f_list (failure (ledger st))) sp f
              ∨ (f ∈ default "" <$> rows ∧ request_of sp f).
Proof.
  revert n st. induction rows as [|r rows IH]; intros n st.
  - exists st. cbn [load_failures filter list_filter length]. unfold ret.
    split; [by rewrite Nat.add_0_r|]. split; [reflexivity|].
    intros sp f. rewrite fmap_nil. split; [by left|].
    by intros [?|[?%elem_of_nil _]].
  - destruct (load_failure_eq (default "" r) st) as (k & st0 & E & K & Hk & L0).
    destruct (IH (n + k) st0) as (st1 & E1 & K1 & L1).
    exists st1. split; [|split].
    + assert (load_failures (r :: rows) false n st
              = load_failures rows false (n + k) st0) as ->.
      { transitivity
          (bind (load_failure (default "" r))
             (λ k', load_failures rows false (n + k')) st);
          [by destruct r|].
        rewrite (bind_returned _ _ _ k) by by rewrite E.
        by rewrite E. }
      rewrite E1. do 2 f_equal. rewrite filter_cons, Hk.
      destruct (decide (is_Some (UnSerialize (default "" r)))); simpl; lia.
    + by etrans.
    + intros sp f. rewrite L1, L0, fmap_cons, elem_of_cons. tauto.
Qed.

(** With documents whose [_id] is a string throughout, the loop of the
    document store is that of the relational store. *)
Lemma load_failures_strict rows n st :
  Forall is_Some rows →
  load_failures rows true n st = load_failures rows false n st.
Proof.
  intros F. revert n st. induction F as [|r rows [s ->] _ IH]; intros n st.
  - done.
  - cbn [load_failures]. unfold bind.
    destruct (load_failure s st) as [[k|] st0]; [apply IH | done].
Qed.

(** The records the stores hold for [ReadFailure]: the rows of the
    select, or the documents of the collection when each has a string
    for its [_id]. *)
Definition failure_rows (p : string) (w : World)
    (rows : list (option string)) : Prop :=
  (p = "mysql" ∧ mysql_db w = true ∧
   mysql_select_all w ("`" +:+ FAILURE_FILE +:+ "`") = Some rows) ∨
  (p = "mgo" ∧ mgo_error w = false ∧
   mgo_all w MGO_DB FAILURE_FILE = rows ∧ Forall is_Some rows).

(** X8. [ReadFailure] with inheritance against one of the two
    databases, on a ledger that has to load: the call returns, a
    failure is filed under a spider exactly when it is among the
    records of the store and deserializes to a request of that spider,
    a record that does not deserialize being skipped, and the count
    the call logs last is the number of records that deserialize,
    repeated records counted as often as they occur. *)
Theorem ReadFailure_loads (p : string) (rows : list (option string)) (st : St)
    (Hcold : f_inheritable (failure (ledger st)) = false)
    (Hrows : failure_rows p (world st) rows) :
  let r := ReadFailure p true st in
  fst r = Returned tt ∧
  (∀ sp f, listed (f_list (failure (ledger (snd r)))) sp f
           ↔ f ∈ default "" <$> rows ∧ request_of sp f) ∧
  f_inheritable (failure (ledger (snd r))) = true ∧
  last (trace (snd r))
  = Some (EvLogInfo (Some (length (filter
            (λ r, is_Some (UnSerialize (default "" r))) rows)))).
Proof.
  cbv zeta. rewrite ReadFailure_load by done.
  assert (E : ReadFailure_switch p (armed_failure p st)
              = (let* fLen := load_failures rows false 0 in
                 emit (EvLogInfo (Some fLen)))
                  {| ledger := ledger (armed_failure p st);
                     world := world st;
                     trace := trace (armed_failure p st)
                              ++ [EvBackendRead (backend_of p) FAILURE_FILE] |}).
  { destruct Hrows as [(-> & Hdb & Hsel)|(-> & Herr & Hall & F)].
    - change (ReadFailure_switch "mysql") with ReadFailure_mysql.
      unfold ReadFailure_mysql.
      rewrite (bind_returned _ _ _ (world st)) by done.
      change (world (snd (get_world (armed_failure "mysql" st))))
        with (world st).
      rewrite Hdb. cbn [negb].
      rewrite (bind_returned _ _ _ tt) by done. by rewrite Hsel.
    - change (ReadFailure_switch "mgo") with ReadFailure_mgo.
      unfold ReadFailure_mgo.
      rewrite (bind_returned _ _ _ (world st)) by done.
      change (world (snd (get_world (armed_failure "mgo" st))))
        with (world st).
      rewrite Herr.
      rewrite (bind_returned _ _ _ tt) by done. rewrite Hall.
      unfold bind. by rewrite load_failures_strict. }
  rewrite E. clear E.
  match goal with |- context [bind _ _ ?s] => set (st0 := s) end.
  destruct (load_failures_listed rows 0 st0) as (st1 & E & [F _] & L).
  destruct F as (_ & _ & _ & Hinh).
  rewrite (bind_returned _ _ _ _) by by rewrite E.
  rewrite E. unfold emit. simpl. split; [done|]. split; [|split].
  - intros sp f. rewrite L. subst st0. simpl. unfold listed.
    split; [|by right]. intros [(inner & Hl & _)|?]; [|done].
    by rewrite lookup_empty in Hl.
  - by rewrite Hinh.
  - by rewrite last_snoc.
Qed.

(** *** When a read panics *)

Lemma ReadSuccess_mysql_returns st : fst (ReadSuccess_mysql st) = Returned tt.
Proof.
  unfold ReadSuccess_mysql.
  rewrite (bind_returned _ _ _ (world st)) by done.
  destruct (mysql_db _); cbn [negb]; [|done].
  rewrite (bind_returned _ _ _ tt) by done.
  destruct (mysql_select_all _ _) as [rows|]; [|done].
  match goal with |- context [bind _ _ ?s] => set (st0 := s) end.
  destruct (mysql_rows_loop rows st0) as (st1 & E & _).
  rewrite (bind_returned _ _ _ tt) by by rewrite E.
  by rewrite E.
Qed.

Lemma ReadFailure_mysql_returns st : fst (ReadFailure_mysql st) = Returned tt.
Proof.
  unfold ReadFailure_mysql.
  rewrite (bind_returned _ _ _ (world st)) by done.
  destruct (mysql_db _); cbn [negb]; [|done].
  rewrite (bind_returned _ _ _ tt) by done.
  destruct (mysql_select_all _ _) as [rows|]; [|done].
  match goal with |- context [bind _ _ ?s] => set (st0 := s) end.
  destruct (load_failures_listed rows 0 st0) as (st1 & E & _).
  rewrite (bind_returned _ _ _ _) by by rewrite E.
  by rewrite E.
Qed.

(** X9. With a provider other than the document store, a read panics
    in one case only: it is made with inheritance, the ledger has to
    load, the provider selects the flat-file backend, and the history
    file exists and is empty.  In particular a read against the
    relational store returns whatever the database answers. *)
Theorem read_panics_on_empty_file_only (p : string) (inherit : bool) (st : St)
    (Hmgo : p ≠ "mgo") :
  (fst (ReadSuccess p inherit st) = Panicked
   ↔ inherit = true ∧ s_inheritable (success (ledger st)) = false ∧
     p ≠ "mysql" ∧ fs_open (world st) SUCCESS_FILE_FULL = Some []) ∧
  (fst (ReadFailure p inherit st) = Panicked
   ↔ inherit = true ∧ f_inheritable (failure (ledger st)) = false ∧
     p ≠ "mysql" ∧ fs_open (world st) FAILURE_FILE_FULL = Some []).
Proof.
  apply String.eqb_neq in Hmgo. split.
  - destruct inherit;
      [|rewrite ReadSuccess_cold; split; [done | by intros (? & _)]].
    destruct (s_inheritable (success (ledger st))) eqn:Hinh;
      [rewrite ReadSuccess_skip by done; split; [done | by intros (_ & ? & _)]|].
    rewrite ReadSuccess_load by done. unfold ReadSuccess_switch. rewrite Hmgo.
    destruct (String.eqb p "mysql") eqn:Hmysql.
    { apply String.eqb_eq in Hmysql as ->. rewrite ReadSuccess_mysql_returns.
      split; [done | by intros (_ & _ & ? & _)]. }
    apply String.eqb_neq in Hmysql.
    destruct (fs_open (world st) SUCCESS_FILE_FULL) as [[|b0 b]|] eqn:E.
    + by rewrite ReadSuccess_file_empty.
    + destruct (ReadSuccess_file_content (armed p st) b0 b E) as [-> _].
      split; [done | by intros (_ & _ & _ & ?)].
    + rewrite ReadSuccess_file_missing by done.
      split; [done | by intros (_ & _ & _ & ?)].
  - destruct inherit;
      [|rewrite ReadFailure_cold; split; [done | by intros (? & _)]].
    destruct (f_inheritable (failure (ledger st))) eqn:Hinh;
      [rewrite ReadFailure_skip by done; split; [done | by intros (_ & ? & _)]|].
    rewrite ReadFailure_load by done. unfold ReadFailure_switch. rewrite Hmgo.
    destruct (String.eqb p "mysql") eqn:Hmysql.
    { apply String.eqb_eq in Hmysql as ->. rewrite ReadFailure_mysql_returns.
      split; [done | by intros (_ & _ & ? & _)]. }
    apply String.eqb_neq in Hmysql.
    destruct (fs_open (world st) FAILURE_FILE_FULL) as [[|b0 b]|] eqn:E.
    + by rewrite ReadFailure_file_empty.
    + destruct (ReadFailure_file_content (armed_failure p st) b0 b E) as [-> _].
      split; [done | by intros (_ & _ & _ & ?)].
    + rewrite ReadFailure_file_missing by done.
      split; [done | by intros (_ & _ & _ & ?)].
Qed.
(** The claim behind C8 as the design document words it: every
    operation accesses the Success Set and the Failure Index under the
    lock. *)
Definition every_access_locked : Prop :=
  ∀ (p : string) (inherit : bool) (st : St),
    Forall (λ op : M unit, guarded false (events_of op st) = true)
      [ReadSuccess p inherit; ReadFailure p inherit;
       FlushSuccess p; FlushFailure p; Empty].

End Proofs.

(** ** A ledger to run *)

(** Collaborators for the runs below: a request is its serialized
    string, the empty string does not deserialize, the spider name is
    what precedes the first space; the decoder is the one that rejects
    every input and so leaves the map as it is; a write reports what it
    was given. *)
Definition spider_of (s : string) : string :=
  String.substring 0
    (match String.index 0 " " s with Some n => n | None => String.length s end)
    s.

Definition sample_env : Env :=
  {| Request := string;
     UnSerialize := λ s, if String.eqb s "" then None else Some s;
     GetSpiderName := spider_of;
     makeUnique := λ r, GetUrl r +:+ GetMethod r;
     json_success := λ _ m, m;
     json_failure := λ _ m, m;
     backend_write := λ _ _ entries _, (length entries, false);
     MGO_DB := "pholcus";
     SUCCESS_FILE := "history_y";
     FAILURE_FILE := "history_n";
     SUCCESS_FILE_FULL := "history/history_y";
     FAILURE_FILE_FULL := "history/history_n" |}.

(** Stores with nothing in them: no database answers and no history
    file exists. *)
Definition no_history : World :=
  {| mgo_find := λ _ _, MgoErr;
     mgo_error := true;
     mgo_all := λ _ _, [];
     mysql_db := false;
     mysql_select_all := λ _, None;
     fs_open := λ _, None;
     written := [] |}.

(** The history files exist and are empty. *)
Definition empty_files : World :=
  {| mgo_find := λ _ _, MgoErr;
     mgo_error := true;
     mgo_all := λ _ _, [];
     mysql_db := false;
     mysql_select_all := λ _, None;
     fs_open := λ _, Some [];
     written := [] |}.

(** The document store holds two success records. *)
Definition two_successes : World :=
  {| mgo_find := λ _ _, MgoDocs [Some "http://a/GET"; Some "http://b/GET"];
     mgo_error := false;
     mgo_all := λ _ _, [];
     mysql_db := false;
     mysql_select_all := λ _, None;
     fs_open := λ _, None;
     written := [] |}.

Definition start (w : World) : St :=
  {| ledger := New; world := w; trace := [] |}.

(** C3 on a new ledger and the record of a GET of http://a/. *)
Lemma UpsertSuccess_twice_witness :
  let r := {| GetUrl := "http://a/"; GetMethod := "GET" |} in
  let first := UpsertSuccess (H := sample_env) r (start no_history) in
  let second := UpsertSuccess (H := sample_env) r (snd first) in
  fst first = Returned true ∧ fst second = Returned false ∧
  occurrences "http://a/GET" (success (ledger (snd second))) = 1.
Proof.
  destruct (UpsertSuccess_twice (H := sample_env)
              {| GetUrl := "http://a/"; GetMethod := "GET" |}
              (start no_history) eq_refl eq_refl)
    as [(H1 & H2 & _ & H3) _].
  exact (conj H1 (conj H2 H3)).
Defined.


(** C8, a run against it: [ReadSuccess] without inheritance on a new
    ledger writes [old], [new] and the flag after it has released the
    lock, so not every access of a ledger operation is under the lock. *)
Lemma ReadSuccess_writes_unlocked :
  events_of (ReadSuccess (H := sample_env) "file" false) (start no_history)
  = [EvLock; EvWrite FProvider; EvUnlock;
     EvWrite FSuccessOld; EvWrite FSuccessNew; EvWrite FSuccessInheritable] ∧
  guarded false
    (events_of (ReadSuccess (H := sample_env) "file" false) (start no_history))
  = false ∧
  ¬ every_access_locked (H := sample_env).
Proof.
  split; [reflexivity|]. split; [reflexivity|].
  intros Hall. specialize (Hall "file" false (start no_history)).
  apply Forall_cons_1 in Hall as [Hread _]. discriminate Hread.
Qed.

(** C5, at the failing input: a new ledger loads two records with
    [ReadSuccess("mgo", true)], is emptied, and is read again with
    inheritance; the second read returns without a backend read and the
    Success Set stays empty, the ledger still being marked inheritable. *)
Lemma Empty_keeps_inheritable :
  let st1 := snd (ReadSuccess (H := sample_env) "mgo" true (start two_successes)) in
  let st2 := snd (Empty st1) in
  let r := ReadSuccess (H := sample_env) "mgo" true st2 in
  s_old (success (ledger st1))
  = <["http://a/GET" := true]> (<["http://b/GET" := true]> ∅) ∧
  backend_reads (trace st1) = 1 ∧
  s_inheritable (success (ledger st2)) = true ∧
  fst r = Returned tt ∧
  s_old (success (ledger (snd r))) = ∅ ∧
  s_new (success (ledger (snd r))) = ∅ ∧
  backend_reads (trace (snd r)) = 1.
Proof. vm_compute. repeat split; reflexivity. Qed.

(** C7, at the failing input: with history files that exist and are
    empty, [ReadSuccess] and [ReadFailure] with inheritance on a new
    ledger panic; with no history file they return and leave the
    Success Set and the Failure Index empty. *)
Lemma empty_history_file_panics :
  fst (ReadSuccess (H := sample_env) "file" true (start empty_files)) = Panicked ∧
  fst (ReadFailure (H := sample_env) "file" true (start empty_files)) = Panicked ∧
  fst (ReadSuccess (H := sample_env) "file" true (start no_history)) = Returned tt ∧
  fst (ReadFailure (H := sample_env) "file" true (start no_history)) = Returned tt ∧
  s_old (success (ledger (snd (ReadSuccess (H := sample_env) "file" true
                                 (start no_history))))) = ∅ ∧
  f_list (failure (ledger (snd (ReadFailure (H := sample_env) "file" true
                                  (start no_history))))) = ∅.
Proof. vm_compute. repeat split; reflexivity. Qed.

(** ** Further runs *)

(** The database answers with three rows under either table, the
    second of which does not scan. *)
Definition three_rows : World :=
  {| mgo_find := λ _ _, MgoErr;
     mgo_error := true;
     mgo_all := λ _ _, [];
     mysql_db := true;
     mysql_select_all :=
       λ _, Some [Some "news http://a/"; None; Some "shop http://b/"];
     fs_open := λ _, None;
     written := [] |}.

(** History files that hold one entry behind a comma: [,"a":true]. *)
Definition written_files : World :=
  {| mgo_find := λ _ _, MgoErr;
     mgo_error := true;
     mgo_all := λ _ _, [];
     mysql_db := false;
     mysql_select_all := λ _, None;
     fs_open := λ _, Some [Byte.x2c; Byte.x22; Byte.x61; Byte.x22; Byte.x3a;
                           Byte.x74; Byte.x72; Byte.x75; Byte.x65];
     written := [] |}.

(** X3 on a new ledger and the document store with two records. *)
Lemma ReadSuccess_mgo_loads_witness :
  let r := ReadSuccess (H := sample_env) "mgo" true (start two_successes) in
  fst r = Returned tt ∧
  s_old (success (ledger (snd r))) !! "http://a/GET"
  = (if decide ("http://a/GET" ∈ ["http://a/GET"; "http://b/GET"])
     then Some true else None) ∧
  s_new (success (ledger (snd r))) = ∅.
Proof.
  destruct (ReadSuccess_mgo_loads (H := sample_env)
              ["http://a/GET"; "http://b/GET"] [] (start two_successes)
              eq_refl eq_refl (or_introl eq_refl))
    as (H1 & H2 & H3 & _).
  exact (conj H1 (conj (H2 "http://a/GET") H3)).
Defined.

(** X4 on a new ledger and the database of three rows: the row that
    does not scan is in [old] under the empty string. *)
Lemma ReadSuccess_mysql_loads_witness :
  let r := ReadSuccess (H := sample_env) "mysql" true (start three_rows) in
  fst r = Returned tt ∧
  s_old (success (ledger (snd r))) !! ""
  = (if decide ("" ∈ ["news http://a/"; ""; "shop http://b/"])
     then Some true else None).
Proof.
  destruct (ReadSuccess_mysql_loads (H := sample_env)
              [Some "news http://a/"; None; Some "shop http://b/"]
              (start three_rows) eq_refl eq_refl eq_refl)
    as (H1 & H2 & _).
  exact (conj H1 (H2 "")).
Defined.

(** X5 on a new ledger: the document store does not answer, and a read
    made once it holds two records does not see them. *)
Lemma ReadSuccess_failed_read_witness :
  let r := ReadSuccess (H := sample_env) "mgo" true (start no_history) in
  let r2 := ReadSuccess (H := sample_env) "mgo" true
              (with_world two_successes (snd r)) in
  s_old (success (ledger (snd r))) = ∅ ∧
  fst r2 = Returned tt ∧
  s_old (success (ledger (snd r2))) = ∅ ∧
  backend_reads (trace (snd r2)) = backend_reads (trace (snd r)).
Proof.
  destruct (ReadSuccess_failed_read (H := sample_env) "mgo"
              (start no_history) eq_refl eq_refl)
    as ((_ & H1 & _) & H2).
  exact (conj H1 (H2 "mgo" two_successes)).
Defined.

(** X6 on a new ledger and a database that does not connect. *)
Lemma ReadFailure_failed_read_witness :
  let r := ReadFailure (H := sample_env) "mysql" true (start no_history) in
  let r2 := ReadFailure (H := sample_env) "mysql" true
              (with_world three_rows (snd r)) in
  f_list (failure (ledger (snd r))) = ∅ ∧
  fst r2 = Returned tt ∧
  f_list (failure (ledger (snd r2))) = ∅ ∧
  backend_reads (trace (snd r2)) = backend_reads (trace (snd r)).
Proof.
  destruct (ReadFailure_failed_read (H := sample_env) "mysql"
              (start no_history) eq_refl (or_introl eq_refl))
    as ((_ & H1 & _) & H2).
  exact (conj H1 (H2 "mysql" three_rows)).
Defined.

(** X7 on a new ledger and the history files of one entry. *)
Lemma flat_file_decoded_witness :
  fst (ReadSuccess (H := sample_env) "file" true (start written_files))
  = Returned tt ∧
  fst (ReadFailure (H := sample_env) "file" true (start written_files))
  = Returned tt.
Proof.
  destruct (flat_file_decoded (H := sample_env) "file" Byte.x2c Byte.x2c
              [Byte.x22; Byte.x61; Byte.x22; Byte.x3a;
               Byte.x74; Byte.x72; Byte.x75; Byte.x65]
              [Byte.x22; Byte.x61; Byte.x22; Byte.x3a;
               Byte.x74; Byte.x72; Byte.x75; Byte.x65]
              (start written_files)
              ltac:(discriminate) ltac:(discriminate)
              eq_refl eq_refl eq_refl eq_refl)
    as ((H1 & _) & (H2 & _)).
  exact (conj H1 H2).
Defined.

(** X8 on a new ledger and the database of three rows: the failure of
    the spider "news" is filed under it, and two records are counted. *)
Lemma ReadFailure_loads_witness :
  let r := ReadFailure (H := sample_env) "mysql" true (start three_rows) in
  fst r = Returned tt ∧
  listed (f_list (failure (ledger (snd r)))) "news" "news http://a/" ∧
  f_inheritable (failure (ledger (snd r))) = true.
Proof.
  destruct (ReadFailure_loads (H := sample_env) "mysql"
              [Some "news http://a/"; None; Some "shop http://b/"]
              (start three_rows) eq_refl
              (or_introl (conj eq_refl (conj eq_refl eq_refl))))
    as (H1 & H2 & H3 & _).
  refine (conj H1 (conj (proj2 (H2 "news" "news http://a/") _) H3)).
  split; [by left|]. by exists "news http://a/".
Defined.

(** X9 on a new ledger and history files that exist and are empty. *)
Lemma read_panics_on_empty_file_only_witness :
  fst (ReadSuccess (H := sample_env) "file" true (start empty_files))
  = Panicked ∧
  fst (ReadFailure (H := sample_env) "file" true (start empty_files))
  = Panicked.
Proof.
  destruct (read_panics_on_empty_file_only (H := sample_env) "file" true
              (start empty_files) ltac:(discriminate))
    as [Hs Hf].
  split.
  - apply Hs. repeat split; discriminate.
  - apply Hf. repeat split; discriminate.
Defined.

End History.

(* ===================================================================== *)
(** * The collection pipeline *)
(* ===================================================================== *)

(** The conventions of the model.
    - Goroutines interleave at the grain of statements: the body of a
      [case] of the [select] and a counter increment are one step
      each.  The condition of the first loop of [Manage] is one step;
      nothing is lost by it: only [Manage] puts a token on [ctrl] and
      only [Manage] takes items off [DataChan], so the condition read
      in two steps exits in the same states.  The condition of the
      second loop is read operand by operand, a step each, the other
      goroutines running in between: first the counters of the text
      outputs, then those of the file outputs, then the length of the
      file channel.  (The two counters of an operand are read in one
      step.  For the text outputs nothing is lost by it, [Manage]
      being the one that writes [outCount[0]]; read one by one, the
      counters of the file outputs have the runs shown here and
      more.)
    - A channel is the list of what it buffers; a send on a full
      channel and a receive on an empty one are steps that are not
      enabled.  [cache.ReportChan] belongs to the process and is taken
      as never full.
    - A goroutine started by [goOutput] carries the docker it was
      handed.
    - The docker queue, [Output] and the file worker are not among the
      sources; each is modelled from the design document, under a
      comment that says so. *)

Module Collector.

(** ** Data *)

(** [uint64] and [uint] (64 bits wide on the platforms the crawler is
    built for): addition wraps around. *)
Definition uint_modulus : N := 2 ^ 64.

Definition uint_add (a b : N) : N := ((a + b) mod uint_modulus)%N.

(** What [Manage] reads of [*spider.Spider]. *)
Record Spider := mkSpider { GetName : string; GetKeyword : string }.

(** [cache.Report]. *)
Record Report := mkReport {
  SpiderName : string;
  Keyword : string;
  DataNum : N;
  FileNum : N;
  Time : Z
}.

(** The configuration a task runs under: [config.DATA_CAP],
    [cache.Task.DockerCap], the number of dockers of a Docker Queue,
    [cache.StartTime] and [cache.Task.OutType]. *)
Class Config := {
  DATA_CAP : nat;
  DockerCap : Z;
  DockerSlots : nat;
  StartTime : Z;
  OutType : string
}.

(** [sum]: text items before and now, files. *)
Record Sum := mkSum { sum0 : N; sum1 : N; sum2 : N }.

(** [outCount]: text outputs started and finished, file outputs started
    and finished. *)
Record OutCount := mkOutCount {
  outCount0 : N; outCount1 : N; outCount2 : N; outCount3 : N
}.

Section Pipeline.
Context {DataCell FileCell : Type}.
Context `{Config}.

(** [DockerQueue]: the dockers and the index of the current one. *)
Record DockerQueue := mkDockerQueue {
  Curr : nat;
  Dockers : list (list DataCell)
}.

(** Modelled from the spec: [NewDockerQueue] is not among the sources.
    "fixed small number of Dockers plus a current index", every docker
    empty and the first one current. *)
Definition NewDockerQueue : DockerQueue :=
  {| Curr := 0; Dockers := replicate DockerSlots [] |}.

(** Modelled from the spec: [Change] is not among the sources.
    "Change advances current to the next slot (wrapping)"; the slot it
    arrives at is an empty docker, as the comment at its call in
    [dockerOne] has it, what that slot handed to an output before being
    the output's by then. *)
Definition Change (q : DockerQueue) : DockerQueue :=
  let next := S (Curr q) mod length (Dockers q) in
  {| Curr := next; Dockers := <[next := []]> (Dockers q) |}.

(** [Collector]; a channel is the list of what it buffers, oldest
    first. *)
Record Collector := mkCollector {
  spider : Spider;
  queue : DockerQueue;
  DataChan : list DataCell;
  FileChan : list FileCell;
  ctrl : list bool;
  timing : Z;
  outType : string;
  sum : Sum;
  outCount : OutCount
}.

Definition set_queue (q : DockerQueue) (c : Collector) : Collector :=
  {| spider := spider c; queue := q; DataChan := DataChan c;
     FileChan := FileChan c; ctrl := ctrl c; timing := timing c;
     outType := outType c; sum := sum c; outCount := outCount c |}.

Definition set_DataChan (ch : list DataCell) (c : Collector) : Collector :=
  {| spider := spider c; queue := queue c; DataChan := ch;
     FileChan := FileChan c; ctrl := ctrl c; timing := timing c;
     outType := outType c; sum := sum c; outCount := outCount c |}.

Definition set_FileChan (ch : list FileCell) (c : Collector) : Collector :=
  {| spider := spider c; queue := queue c; DataChan := DataChan c;
     FileChan := ch; ctrl := ctrl c; timing := timing c;
     outType := outType c; sum := sum c; outCount := outCount c |}.

Definition set_ctrl (ch : list bool) (c : Collector) : Collector :=
  {| spider := spider c; queue := queue c; DataChan := DataChan c;
     FileChan := FileChan c; ctrl := ch; timing := timing c;
     outType := outType c; sum := sum c; outCount := outCount c |}.

Definition set_sum (v : Sum) (c : Collector) : Collector :=
  {| spider := spider c; queue := queue c; DataChan := DataChan c;
     FileChan := FileChan c; ctrl := ctrl c; timing := timing c;
     outType := outType c; sum := v; outCount := outCount c |}.

Definition set_outCount (v : OutCount) (c : Collector) : Collector :=
  {| spider := spider c; queue := queue c; DataChan := DataChan c;
     FileChan := FileChan c; ctrl := ctrl c; timing := timing c;
     outType := outType c; sum := sum c; outCount := v |}.

(** [Init] on a collector (what [NewCollector] made is overwritten
    field by field). *)
Definition Init (sp : Spider) : Collector :=
  {| spider := sp;
     queue := NewDockerQueue;
     DataChan := [];
     FileChan := [];
     ctrl := [];
     timing := StartTime;
     outType := OutType;
     sum := {| sum0 := 0; sum1 := 0; sum2 := 0 |};
     outCount := {| outCount0 := 0; outCount1 := 0;
                    outCount2 := 0; outCount3 := 0 |} |}.

Definition CtrlLen (c : Collector) : nat := length (ctrl c).

Definition dataSum (c : Collector) : N := sum1 (sum c).

Definition setDataSum (add : N) (c : Collector) : Collector :=
  set_sum {| sum0 := sum1 (sum c);
             sum1 := uint_add (sum1 (sum c)) add;
             sum2 := sum2 (sum c) |} c.

Definition fileSum (c : Collector) : N := sum2 (sum c).

Definition setFileSum (add : N) (c : Collector) : Collector :=
  set_sum {| sum0 := sum0 (sum c);
             sum1 := sum1 (sum c);
             sum2 := uint_add (sum2 (sum c)) add |} c.

(** ** The goroutines of a task *)

(** A goroutine started by [goOutput]: the docker index it was given
    and the docker it was handed (a docker handed to an output is
    read-only until the output is over, so what [Output] finds at the
    index is what was there at the trigger); [Spawned] before [Output]
    has run, [Written] between [Output] and [outCount[1]++], [Finished]
    after. *)
Inductive Stage := Spawned | Written | Finished.

Record OutputTask := mkOutputTask {
  dataIndex : nat;
  batch : list DataCell;
  stage : Stage
}.

(** A file output the file worker started. *)
Record FileTask := mkFileTask {
  file : FileCell;
  saved : bool
}.

(** Where the goroutine that runs [Manage] stands. *)
Inductive Pc :=
| AtCtrlW      (* self.CtrlW() *)
| AtSaveFile   (* go self.SaveFile() *)
| AtLoop       (* the condition of the first loop *)
| AtSelect     (* the select in its body *)
| AtFinal      (* self.goOutput(self.Curr) after the loop *)
| AtWait       (* the second loop: outCount[0] > outCount[1] *)
| AtWaitFiles  (* the second loop: || outCount[2] > outCount[3] *)
| AtWaitChan   (* the second loop: || len(self.FileChan) > 0 *)
| AtReport     (* self.Report() *)
| Done         (* returned *)
| Crashed.     (* index out of range *)

Global Instance Pc_eq_dec : EqDecision Pc.
Proof. solve_decision. Defined.

(** The task: the collector, the goroutines, the report channel and the
    clock; [sent] is a history variable, every item [CollectData] has
    put on [DataChan], oldest first. *)
Record System := mkSystem {
  self : Collector;
  pc : Pc;
  outputs : list OutputTask;
  saveFile : bool;
  files : list FileTask;
  ReportChan : list Report;
  now : Z;
  sent : list DataCell
}.

Definition set_self (c : Collector) (s : System) : System :=
  {| self := c; pc := pc s; outputs := outputs s; saveFile := saveFile s;
     files := files s; ReportChan := ReportChan s; now := now s;
     sent := sent s |}.

Definition set_pc (p : Pc) (s : System) : System :=
  {| self := self s; pc := p; outputs := outputs s; saveFile := saveFile s;
     files := files s; ReportChan := ReportChan s; now := now s;
     sent := sent s |}.

Definition set_outputs (o : list OutputTask) (s : System) : System :=
  {| self := self s; pc := pc s; outputs := o; saveFile := saveFile s;
     files := files s; ReportChan := ReportChan s; now := now s;
     sent := sent s |}.

Definition set_saveFile (b : bool) (s : System) : System :=
  {| self := self s; pc := pc s; outputs := outputs s; saveFile := b;
     files := files s; ReportChan := ReportChan s; now := now s;
     sent := sent s |}.

Definition set_files (f : list FileTask) (s : System) : System :=
  {| self := self s; pc := pc s; outputs := outputs s; saveFile := saveFile s;
     files := f; ReportChan := ReportChan s; now := now s;
     sent := sent s |}.

Definition set_ReportChan (r : list Report) (s : System) : System :=
  {| self := self s; pc := pc s; outputs := outputs s; saveFile := saveFile s;
     files := files s; ReportChan := r; now := now s;
     sent := sent s |}.

Definition set_now (t : Z) (s : System) : System :=
  {| self := self s; pc := pc s; outputs := outputs s; saveFile := saveFile s;
     files := files s; ReportChan := ReportChan s; now := t;
     sent := sent s |}.

Definition set_sent (l : list DataCell) (s : System) : System :=
  {| self := self s; pc := pc s; outputs := outputs s; saveFile := saveFile s;
     files := files s; ReportChan := ReportChan s; now := now s;
     sent := l |}.

(** ** [goOutput], [dockerOne], [Report] *)

(** [self.outCount[0]++] and the [go] statement. *)
Definition goOutput (index : nat) (s : System) : System :=
  let c := self s in
  let oc := outCount c in
  let handed := default [] (Dockers (queue c) !! index) in
  set_outputs
    (outputs s ++ [{| dataIndex := index; batch := handed; stage := Spawned |}])
    (set_self
       (set_outCount {| outCount0 := uint_add (outCount0 oc) 1;
                        outCount1 := outCount1 oc;
                        outCount2 := outCount2 oc;
                        outCount3 := outCount3 oc |} c) s).

(** [dockerOne]; [None] is the panic of an index out of range. *)
Definition dockerOne (data : DataCell) (s : System) : option System :=
  let c := self s in
  let q := queue c in
  match Dockers q !! Curr q with
  | None => None
  | Some d =>
      let q' := {| Curr := Curr q; Dockers := <[Curr q := d ++ [data]]> (Dockers q) |} in
      let s' := set_self (set_queue q' c) s in
      if (DockerCap <=? Z.of_nat (length (d ++ [data])))%Z then
        let s'' := goOutput (Curr q') s' in
        Some (set_self (set_queue (Change (queue (self s''))) (self s'')) s'')
      else Some s'
  end.

Definition Report_ (s : System) : System :=
  set_ReportChan
    (ReportChan s ++
     [{| SpiderName := GetName (spider (self s));
         Keyword := GetKeyword (spider (self s));
         DataNum := dataSum (self s);
         FileNum := fileSum (self s);
         Time := (now s - StartTime)%Z |}]) s.

(** ** [Manage], one step at a time *)

(** The condition of the first loop,
    [!(self.CtrlLen() == 0 && len(self.DataChan) == 0)]. *)
Definition filling (c : Collector) : bool :=
  negb (Nat.eqb (CtrlLen c) 0 && Nat.eqb (length (DataChan c)) 0).

(** The operands of the condition of the second loop:
    [outCount[0] > outCount[1]], [outCount[2] > outCount[3]] and
    [len(self.FileChan) > 0]. *)
Definition text_running (c : Collector) : bool :=
  (outCount1 (outCount c) <? outCount0 (outCount c))%N.

Definition files_running (c : Collector) : bool :=
  (outCount3 (outCount c) <? outCount2 (outCount c))%N.

Definition files_queued (c : Collector) : bool :=
  0 <? length (FileChan c).

(** The condition of the second loop, read in one state. *)
Definition draining (c : Collector) : bool :=
  text_running c || files_running c || files_queued c.

(** One step of the goroutine that runs [Manage].  The condition of
    the first loop is evaluated in one step, and so is the body of a
    [case] of the select; the condition of the second loop is
    evaluated an operand a step, [||] going on to its next operand
    when one is false and the loop to its body, [runtime.Gosched()],
    and back to the first operand when one is true.  [None]: the
    goroutine is blocked or has returned. *)
Definition Manage_step (s : System) : option System :=
  match pc s with
  | AtCtrlW =>
      if length (ctrl (self s)) <? 1
      then Some (set_pc AtSaveFile
                   (set_self (set_ctrl (ctrl (self s) ++ [true]) (self s)) s))
      else None
  | AtSaveFile => Some (set_pc AtLoop (set_saveFile true s))
  | AtLoop =>
      if filling (self s) then Some (set_pc AtSelect s)
      else Some (set_pc AtFinal s)
  | AtSelect =>
      match DataChan (self s) with
      | data :: rest =>
          match dockerOne data (set_self (set_DataChan rest (self s)) s) with
          | Some s' => Some (set_pc AtLoop s')
          | None => Some (set_pc Crashed s)
          end
      | [] => Some (set_pc AtLoop s)
      end
  | AtFinal => Some (set_pc AtWait (goOutput (Curr (queue (self s))) s))
  | AtWait =>
      if text_running (self s) then Some s
      else Some (set_pc AtWaitFiles s)
  | AtWaitFiles =>
      if files_running (self s) then Some (set_pc AtWait s)
      else Some (set_pc AtWaitChan s)
  | AtWaitChan =>
      if files_queued (self s) then Some (set_pc AtWait s)
      else Some (set_pc AtReport s)
  | AtReport => Some (set_pc Done (Report_ s))
  | Done | Crashed => None
  end.

(** ** The other goroutines *)

(** Modelled from the spec: [Output] is not among the sources.  It
    writes the docker it was handed and adds the number of its items to
    the running total the report reads ("cumulative text-item count"),
    through [setDataSum]. *)
Definition Output (t : OutputTask) (c : Collector) : Collector :=
  setDataSum (N.of_nat (length (batch t))) c.

(** The next step of the [k]-th goroutine [goOutput] started:
    [self.Output(dataIndex)], then [self.outCount[1]++]. *)
Definition output_step (k : nat) (s : System) : option System :=
  match outputs s !! k with
  | Some t =>
      match stage t with
      | Spawned =>
          Some (set_outputs
                  (<[k := {| dataIndex := dataIndex t; batch := batch t;
                             stage := Written |}]> (outputs s))
                  (set_self (Output t (self s)) s))
      | Written =>
          let oc := outCount (self s) in
          Some (set_outputs
                  (<[k := {| dataIndex := dataIndex t; batch := batch t;
                             stage := Finished |}]> (outputs s))
                  (set_self
                     (set_outCount
                        {| outCount0 := outCount0 oc;
                           outCount1 := uint_add (outCount1 oc) 1;
                           outCount2 := outCount2 oc;
                           outCount3 := outCount3 oc |} (self s)) s))
      | Finished => None
      end
  | None => None
  end.

(** Modelled from the spec: [SaveFile] is not among the sources.  "A
    file queue is drained independently and continuously by a dedicated
    concurrent worker"; the worker takes a file off the queue and
    starts its output, the started counter going up at the trigger. *)
Definition SaveFile_step (s : System) : option System :=
  if saveFile s then
    match FileChan (self s) with
    | f :: rest =>
        let oc := outCount (self s) in
        Some (set_files (files s ++ [{| file := f; saved := false |}])
                (set_self
                   (set_outCount
                      {| outCount0 := outCount0 oc;
                         outCount1 := outCount1 oc;
                         outCount2 := uint_add (outCount2 oc) 1;
                         outCount3 := outCount3 oc |}
                      (set_FileChan rest (self s))) s))
    | [] => None
    end
  else None.

(** Modelled from the spec: the end of a file output, which counts the
    file ([setFileSum]) and then the finished output. *)
Definition file_saved_step (k : nat) (s : System) : option System :=
  match files s !! k with
  | Some t =>
      if saved t then None
      else
        let c := setFileSum 1 (self s) in
        let oc := outCount c in
        Some (set_files (<[k := {| file := file t; saved := true |}]> (files s))
                (set_self
                   (set_outCount
                      {| outCount0 := outCount0 oc;
                         outCount1 := outCount1 oc;
                         outCount2 := outCount2 oc;
                         outCount3 := uint_add (outCount3 oc) 1 |} c) s))
  | None => None
  end.

(** [CollectData]: the send blocks while the channel is full. *)
Definition CollectData (dataCell : DataCell) (s : System) : option System :=
  if length (DataChan (self s)) <? DATA_CAP
  then Some (set_sent (sent s ++ [dataCell])
               (set_self (set_DataChan (DataChan (self s) ++ [dataCell])
                            (self s)) s))
  else None.

(** [CollectFile], on a channel of capacity 512. *)
Definition CollectFile (fileCell : FileCell) (s : System) : option System :=
  if length (FileChan (self s)) <? 512
  then Some (set_self (set_FileChan (FileChan (self s) ++ [fileCell])
                         (self s)) s)
  else None.

(** [CtrlR]: the receive blocks while the channel is empty. *)
Definition CtrlR (s : System) : option System :=
  match ctrl (self s) with
  | _ :: rest => Some (set_self (set_ctrl rest (self s)) s)
  | [] => None
  end.

(** ** Schedules *)

Inductive Label :=
| LManage                       (* the goroutine of Manage *)
| LCollectData (d : DataCell)   (* a spider worker *)
| LCollectFile (f : FileCell)
| LCtrlR                        (* whoever requests the shutdown *)
| LOutput (k : nat)             (* a goroutine of goOutput *)
| LSaveFile                     (* the file worker *)
| LFileSaved (k : nat)          (* a file output *)
| LTick.                        (* the clock *)

Definition step (l : Label) (s : System) : option System :=
  match l with
  | LManage => Manage_step s
  | LCollectData d => CollectData d s
  | LCollectFile f => CollectFile f s
  | LCtrlR => CtrlR s
  | LOutput k => output_step k s
  | LSaveFile => SaveFile_step s
  | LFileSaved k => file_saved_step k s
  | LTick => Some (set_now (now s + 1)%Z s)
  end.

(** A schedule, from the left; [None] when it asks a blocked goroutine
    to step. *)
Fixpoint run (sched : list Label) (s : System) : option System :=
  match sched with
  | [] => Some s
  | l :: sched' =>
      match step l s with
      | Some s' => run sched' s'
      | None => None
      end
  end.

(** The task as [Init] leaves it, [Manage] about to be called. *)
Definition initial (sp : Spider) : System :=
  {| self := Init sp; pc := AtCtrlW; outputs := []; saveFile := false;
     files := []; ReportChan := []; now := StartTime; sent := [] |}.

(** ** Reading a state *)

(** The number of items a docker holds when [dockerOne] hands it to an
    output: [DockerCap], and one when [DockerCap] is less. *)
Definition capacity : nat := Z.to_nat (Z.max 1 DockerCap).

Definition batches (s : System) : list (list DataCell) :=
  map batch (outputs s).

Definition is_finished (t : OutputTask) : bool :=
  match stage t with Finished => true | _ => false end.

(** The outputs that are over, the items the outputs have counted and
    the files that are saved. *)
Definition finished_count (l : list OutputTask) : nat :=
  sum_list_with (λ t, if is_finished t then 1 else 0) l.

Definition counted_items (l : list OutputTask) : nat :=
  sum_list_with
    (λ t, match stage t with Spawned => 0 | _ => length (batch t) end) l.

Definition saved_count (l : list FileTask) : nat :=
  sum_list_with (λ t, if saved t then 1 else 0) l.

(** No output in flight, text or file. *)
Definition all_finished (s : System) : Prop :=
  Forall (λ t, stage t = Finished) (outputs s).

Definition all_saved (s : System) : Prop :=
  Forall (λ t, saved t = true) (files s).

(** The barrier of [Manage]: the condition of its second loop is
    false, all of it in one state. *)
Definition barrier (s : System) : Prop := draining (self s) = false.

(** The loop of [Manage] is behind it. *)
Definition after_loop (p : Pc) : bool :=
  match p with
  | AtWait | AtWaitFiles | AtWaitChan | AtReport | Done => true
  | _ => false
  end.

(** [Manage] has found the text outputs it started to be over. *)
Definition past_text (p : Pc) : bool :=
  match p with
  | AtWaitFiles | AtWaitChan | AtReport | Done => true
  | _ => false
  end.


End Pipeline.

(** ** Lemmas *)

Section Proofs.
Context {DataCell FileCell : Type}.
Context `{Config}.

Local Abbreviation System := (@System DataCell FileCell).
Local Abbreviation Label := (@Label DataCell FileCell).
Local Abbreviation OutputTask := (@OutputTask DataCell).
Local Abbreviation FileTask := (@FileTask FileCell).

Implicit Types (s : System) (l : Label) (sched : list Label).

(** *** Counters that wrap *)

Definition wrap (n : nat) : N := (N.of_nat n mod uint_modulus)%N.

Lemma uint_add_wrap n m :
  uint_add (wrap n) (N.of_nat m) = wrap (n + m).
Proof.
  unfold uint_add, wrap. rewrite Nat2N.inj_add.
  by rewrite N.Div0.add_mod_idemp_l.
Qed.

Lemma uint_add_wrap_1 n : uint_add (wrap n) 1 = wrap (S n).
Proof.
  change 1%N with (N.of_nat 1). rewrite uint_add_wrap. f_equal. lia.
Qed.

Lemma wrap_small n :
  (N.of_nat n < uint_modulus)%N → wrap n = N.of_nat n.
Proof. intros Hn. unfold wrap. by apply N.mod_small. Qed.

(** Below the modulus, the started counter not exceeding the finished
    one means that as many finished as started. *)
Lemma wrap_barrier a b :
  a ≤ b → (N.of_nat b < uint_modulus)%N →
  (wrap a <? wrap b)%N = false → a = b.
Proof.
  intros Hab Hb Hlt. rewrite !wrap_small in Hlt by lia.
  apply N.ltb_ge in Hlt. lia.
Qed.

(** *** Tallies over the goroutines *)

Lemma sum_list_with_insert {A} (f : A → nat) (l : list A) k x y :
  l !! k = Some x →
  sum_list_with f (<[k := y]> l) + f x = sum_list_with f l + f y.
Proof.
  revert k. induction l as [|a l IH]; intros [|k] Hk; simplify_eq/=.
  - lia.
  - specialize (IH k Hk). lia.
Qed.

Lemma sum_list_with_le_length {A} (f : A → nat) (l : list A) :
  (∀ x, f x ≤ 1) → sum_list_with f l ≤ length l.
Proof.
  intros Hf. induction l as [|a l IH]; simpl; [lia|].
  specialize (Hf a). lia.
Qed.

Lemma sum_list_with_full {A} (f : A → nat) (l : list A) :
  (∀ x, f x ≤ 1) → sum_list_with f l = length l → Forall (λ x, f x = 1) l.
Proof.
  intros Hf. induction l as [|a l IH]; simpl; intros Hsum; [constructor|].
  pose proof (sum_list_with_le_length f l Hf). pose proof (Hf a).
  constructor; [lia | apply IH; lia].
Qed.

Lemma finished_count_le (l : list OutputTask) : finished_count l ≤ length l.
Proof. apply sum_list_with_le_length. intros t. destruct (is_finished t); lia. Qed.

Lemma finished_count_full (l : list OutputTask) :
  finished_count l = length l → Forall (λ t, stage t = Finished) l.
Proof.
  intros E. apply sum_list_with_full in E.
  - eapply Forall_impl; [exact E|]. intros t. unfold is_finished.
    by destruct (stage t).
  - intros t. destruct (is_finished t); lia.
Qed.


Lemma saved_count_full (l : list FileTask) :
  saved_count l = length l → Forall (λ t, saved t = true) l.
Proof.
  intros E. apply sum_list_with_full in E.
  - eapply Forall_impl; [exact E|]. intros t. simpl. by destruct (saved t).
  - intros t. destruct (saved t); lia.
Qed.

Lemma counted_items_finished (l : list OutputTask) :
  Forall (λ t, stage t = Finished) l →
  counted_items l = length (concat (map batch l)).
Proof.
  induction 1 as [|t l Ht _ IH]; [done|].
  unfold counted_items in *. simpl. rewrite Ht, length_app. lia.
Qed.

(** *** The counters follow the goroutines *)

(** [outCount] and [sum] count, modulo the width of a counter: the
    outputs started and finished, the file outputs started and
    finished, the items and the files the finished outputs counted. *)
Definition counters_ok s : Prop :=
  outCount0 (outCount (self s)) = wrap (length (outputs s)) ∧
  outCount1 (outCount (self s)) = wrap (finished_count (outputs s)) ∧
  outCount2 (outCount (self s)) = wrap (length (files s)) ∧
  outCount3 (outCount (self s)) = wrap (saved_count (files s)) ∧
  sum1 (sum (self s)) = wrap (counted_items (outputs s)) ∧
  sum2 (sum (self s)) = wrap (saved_count (files s)).

Lemma goOutput_counters i s : counters_ok s → counters_ok (goOutput i s).
Proof.
  intros (H0 & H1 & H2 & H3 & H4 & H5). unfold counters_ok, goOutput. simpl.
  unfold finished_count, counted_items in *.
  rewrite length_app, !sum_list_with_app. simpl.
  rewrite !Nat.add_0_r, Nat.add_1_r, H0, uint_add_wrap_1. done.
Qed.

Lemma dockerOne_counters d s s' :
  counters_ok s → dockerOne d s = Some s' → counters_ok s'.
Proof.
  intros Hc. unfold dockerOne.
  destruct (Dockers (queue (self s)) !! Curr (queue (self s))); [|done].
  case_match; intros [= <-]; [|exact Hc].
  match goal with
  | |- counters_ok (set_self _ (goOutput ?i ?s0)) =>
      assert (Hg : counters_ok (goOutput i s0)) by (by apply goOutput_counters)
  end.
  exact Hg.
Qed.

Lemma Manage_step_counters s s' :
  counters_ok s → Manage_step s = Some s' → counters_ok s'.
Proof.
  intros Hc. unfold Manage_step.
  destruct (pc s); try done.
  - case_match; intros [= <-]; exact Hc.
  - intros [= <-]. exact Hc.
  - case_match; intros [= <-]; exact Hc.
  - destruct (DataChan (self s)) as [|d rest]; [intros [= <-]; exact Hc|].
    destruct (dockerOne d _) as [s1|] eqn:E; intros [= <-]; [|exact Hc].
    eapply dockerOne_counters in E; [exact E | exact Hc].
  - intros [= <-]. by apply (goOutput_counters _ s).
  - case_match; intros [= <-]; exact Hc.
  - case_match; intros [= <-]; exact Hc.
  - case_match; intros [= <-]; exact Hc.
  - intros [= <-]. exact Hc.
Qed.

Lemma output_step_counters k s s' :
  counters_ok s → output_step k s = Some s' → counters_ok s'.
Proof.
  intros (H0 & H1 & H2 & H3 & H4 & H5). unfold output_step.
  destruct (outputs s !! k) as [t|] eqn:Hk; [|done].
  destruct (stage t) eqn:Hst; intros [= <-]; unfold counters_ok; simpl;
    rewrite length_insert.
  - pose proof (sum_list_with_insert
      (λ t, if is_finished t then 1 else 0) _ _ _
      {| dataIndex := dataIndex t; batch := batch t; stage := Written |} Hk) as E1.
    pose proof (sum_list_with_insert
      (λ t, match stage t with Spawned => 0 | _ => length (batch t) end) _ _ _
      {| dataIndex := dataIndex t; batch := batch t; stage := Written |} Hk) as E2.
    unfold is_finished in E1. simpl in E1, E2. rewrite Hst in E1, E2.
    unfold finished_count, counted_items, is_finished in *.
    rewrite H0, H1, H2, H3, H4, H5, ?uint_add_wrap.
    repeat split; f_equal; lia.
  - pose proof (sum_list_with_insert
      (λ t, if is_finished t then 1 else 0) _ _ _
      {| dataIndex := dataIndex t; batch := batch t; stage := Finished |} Hk) as E1.
    pose proof (sum_list_with_insert
      (λ t, match stage t with Spawned => 0 | _ => length (batch t) end) _ _ _
      {| dataIndex := dataIndex t; batch := batch t; stage := Finished |} Hk) as E2.
    unfold is_finished in E1. simpl in E1, E2. rewrite Hst in E1, E2.
    unfold finished_count, counted_items, is_finished in *.
    rewrite H0, H1, H2, H3, H4, H5, ?uint_add_wrap_1.
    repeat split; f_equal; lia.
Qed.

Lemma file_steps_counters l s s' :
  l = LSaveFile ∨ (∃ k, l = LFileSaved k) →
  counters_ok s → step l s = Some s' → counters_ok s'.
Proof.
  intros Hl (H0 & H1 & H2 & H3 & H4 & H5).
  destruct Hl as [->|[k ->]]; simpl.
  - unfold SaveFile_step. destruct (saveFile s); [|done].
    destruct (FileChan (self s)); [done|]. intros [= <-].
    unfold counters_ok, saved_count in *. simpl.
    rewrite length_app, sum_list_with_app. simpl.
    rewrite !Nat.add_0_r, Nat.add_1_r, H2, uint_add_wrap_1. done.
  - unfold file_saved_step.
    destruct (files s !! k) as [t|] eqn:Hk; [|done].
    destruct (saved t) eqn:Hsv; [done|]. intros [= <-].
    pose proof (sum_list_with_insert (λ t, if saved t then 1 else 0) _ _ _
      {| file := file t; saved := true |} Hk) as E.
    simpl in E. rewrite Hsv in E.
    unfold counters_ok, saved_count in *. simpl. rewrite length_insert.
    change 1%N with (N.of_nat 1) at 1.
    rewrite H0, H1, H2, H3, H4, H5, uint_add_wrap, uint_add_wrap_1.
    repeat split; f_equal; lia.
Qed.

Lemma step_counters l s s' :
  counters_ok s → step l s = Some s' → counters_ok s'.
Proof.
  intros Hc. destruct l; simpl.
  - by apply Manage_step_counters.
  - unfold CollectData. case_match; intros [= <-]; exact Hc.
  - unfold CollectFile. case_match; intros [= <-]; exact Hc.
  - unfold CtrlR. destruct (ctrl (self s)); intros [= <-]. exact Hc.
  - by apply output_step_counters.
  - apply (file_steps_counters LSaveFile); auto.
  - apply (file_steps_counters (LFileSaved k)); eauto.
  - intros [= <-]. exact Hc.
Qed.

(** *** The dockers follow the items *)

Lemma capacity_pos : 0 < capacity.
Proof. unfold capacity. lia. Qed.

Lemma DockerCap_capacity n :
  0 < n → (DockerCap <=? Z.of_nat n)%Z = true ↔ capacity ≤ n.
Proof. intros Hn. unfold capacity. rewrite Z.leb_le. lia. Qed.

(** While [Manage] is in its first loop the outputs it triggered are
    full dockers, the current docker is short of full, and the items
    sent are those of the triggered dockers, of the current docker and
    of the channel, in this order; once the loop is behind, the last
    output triggered is the docker that was current, and the items sent
    are those of the triggered dockers and of the channel. *)
Definition docker_ok s : Prop :=
  Curr (queue (self s)) < length (Dockers (queue (self s))) ∧
  pc s ≠ Crashed ∧
  if after_loop (pc s) then
    ∃ full last,
      batches s = full ++ [last] ∧
      Forall (λ b, length b = capacity) full ∧
      length last < capacity ∧
      sent s = concat (batches s) ++ DataChan (self s)
  else
    ∃ cur,
      Dockers (queue (self s)) !! Curr (queue (self s)) = Some cur ∧
      Forall (λ b, length b = capacity) (batches s) ∧
      length cur < capacity ∧
      sent s = concat (batches s) ++ cur ++ DataChan (self s).

Lemma initial_docker_ok sp :
  0 < DockerSlots → docker_ok (initial (DataCell := DataCell)
                                 (FileCell := FileCell) sp).
Proof.
  intros Hslots. unfold docker_ok. simpl. rewrite length_replicate.
  split; [done|]. split; [done|]. exists [].
  split; [by apply lookup_replicate_2|].
  split; [constructor|]. split; [apply capacity_pos | done].
Qed.

Lemma batches_insert s k (t t' : OutputTask) :
  outputs s !! k = Some t → batch t' = batch t →
  map batch (<[k := t']> (outputs s)) = batches s.
Proof.
  intros Hk Hb. unfold batches.
  rewrite list_fmap_insert, Hb. apply list_insert_id.
  by rewrite list_lookup_fmap, Hk.
Qed.

(** [dockerOne] on the item at the head of the channel. *)
Lemma dockerOne_docker d rest s :
  docker_ok s → after_loop (pc s) = false →
  DataChan (self s) = d :: rest →
  ∃ s', dockerOne d (set_self (set_DataChan rest (self s)) s) = Some s' ∧
        docker_ok (set_pc AtLoop s').
Proof.
  intros (Hcurr & Hpc & Hd) Hloop Hchan. rewrite Hloop in Hd.
  destruct Hd as (cur & Hcur & Hfull & Hlen & Hsent).
  unfold dockerOne. simpl. rewrite Hcur.
  destruct (DockerCap <=? Z.of_nat (length (cur ++ [d])))%Z eqn:Hcap.
  - eexists. split; [reflexivity|].
    apply DockerCap_capacity in Hcap; [|rewrite length_app; simpl; lia].
    rewrite length_app in Hcap. simpl in Hcap.
    unfold docker_ok, Change, batches. simpl.
    rewrite !length_insert.
    assert (Hn : S (Curr (queue (self s))) mod
                 length (Dockers (queue (self s)))
                 < length (Dockers (queue (self s))))
      by (apply Nat.mod_upper_bound; lia).
    split; [exact Hn|]. split; [done|].
    exists []. rewrite list_lookup_insert_eq by (by rewrite length_insert).
    split; [done|].
    rewrite list_lookup_insert_eq by done. simpl.
    rewrite map_app, concat_app. simpl.
    split; [|split; [apply capacity_pos|]].
    + apply Forall_app. split; [exact Hfull|].
      constructor; [|constructor]. rewrite length_app. simpl. lia.
    + rewrite Hsent, Hchan, !app_nil_r, <- !app_assoc. done.
  - eexists. split; [reflexivity|].
    assert (Hlt : ¬ capacity ≤ length (cur ++ [d])).
    { intros Hge. apply DockerCap_capacity in Hge;
        [congruence | rewrite length_app; simpl; lia]. }
    unfold docker_ok, batches. simpl. rewrite length_insert.
    split; [done|]. split; [done|].
    exists (cur ++ [d]). rewrite list_lookup_insert_eq by done.
    repeat split; [done | lia |].
    rewrite Hsent, Hchan, <- !app_assoc. done.
Qed.

Lemma goOutput_final s :
  docker_ok s → pc s = AtFinal →
  docker_ok (set_pc AtWait (goOutput (Curr (queue (self s))) s)).
Proof.
  intros (Hcurr & _ & Hd) Hpc. rewrite Hpc in Hd. simpl in Hd.
  destruct Hd as (cur & Hcur & Hfull & Hlen & Hsent).
  unfold docker_ok, batches. simpl. rewrite Hcur. simpl.
  split; [done|]. split; [done|].
  exists (batches s), cur. rewrite map_app, concat_app. simpl.
  repeat split; [done | done |].
  by rewrite Hsent, app_nil_r, <- app_assoc.
Qed.

Lemma Manage_step_docker s s' :
  docker_ok s → Manage_step s = Some s' → docker_ok s'.
Proof.
  intros Hd. unfold Manage_step.
  destruct (pc s) eqn:Hpc; try done.
  - case_match; intros [= <-].
    unfold docker_ok in *. simpl. rewrite Hpc in Hd. simpl in Hd.
    destruct Hd as (? & _ & ?). done.
  - intros [= <-].
    unfold docker_ok in *. simpl. rewrite Hpc in Hd. simpl in Hd.
    destruct Hd as (? & _ & ?). done.
  - case_match; intros [= <-];
      unfold docker_ok in *; simpl; rewrite Hpc in Hd; simpl in Hd;
      destruct Hd as (? & _ & ?); done.
  - destruct (DataChan (self s)) as [|d rest] eqn:Hchan.
    + intros [= <-].
      unfold docker_ok in *. simpl. rewrite Hpc, Hchan in Hd. simpl in Hd.
      rewrite Hchan. destruct Hd as (? & _ & ?). done.
    + destruct (dockerOne_docker d rest s Hd) as (s1 & -> & Hd1);
        [by rewrite Hpc | done |].
      by intros [= <-].
  - intros [= <-]. by apply goOutput_final.
  - case_match; intros [= <-]; [exact Hd|].
    unfold docker_ok in *. simpl. rewrite Hpc in Hd. simpl in Hd.
    destruct Hd as (? & _ & ?). done.
  - case_match; intros [= <-];
      unfold docker_ok in *; simpl; rewrite Hpc in Hd; simpl in Hd;
      destruct Hd as (? & _ & ?); done.
  - case_match; intros [= <-];
      unfold docker_ok in *; simpl; rewrite Hpc in Hd; simpl in Hd;
      destruct Hd as (? & _ & ?); done.
  - intros [= <-].
    unfold docker_ok in *. simpl. rewrite Hpc in Hd. simpl in Hd.
    destruct Hd as (? & _ & ?). done.
Qed.

Lemma step_docker l s s' :
  docker_ok s → step l s = Some s' → docker_ok s'.
Proof.
  intros Hd. destruct l; simpl.
  - by apply Manage_step_docker.
  - unfold CollectData. case_match; intros [= <-].
    destruct Hd as (Hcurr & Hpc & Hd). unfold docker_ok, batches in *. simpl.
    split; [done|]. split; [done|].
    destruct (after_loop (pc s)).
    + destruct Hd as (full & last & ? & ? & ? & Hsent).
      exists full, last. repeat split; try done.
      by rewrite Hsent, app_assoc.
    + destruct Hd as (cur & ? & ? & ? & Hsent).
      exists cur. repeat split; try done.
      by rewrite Hsent, !app_assoc.
  - unfold CollectFile. case_match; intros [= <-]. exact Hd.
  - unfold CtrlR. destruct (ctrl (self s)); intros [= <-]. exact Hd.
  - unfold output_step. destruct (outputs s !! k) as [t|] eqn:Hk; [|done].
    destruct (stage t); intros [= <-]; try done;
      unfold docker_ok, batches in *; simpl;
      (rewrite (batches_insert s k t) by done); exact Hd.
  - unfold SaveFile_step. destruct (saveFile s); [|done].
    destruct (FileChan (self s)); intros [= <-]. exact Hd.
  - unfold file_saved_step. destruct (files s !! k) as [t|]; [|done].
    destruct (saved t); intros [= <-]. exact Hd.
  - intros [= <-]. exact Hd.
Qed.

(** *** Schedules *)

Lemma run_app sched1 sched2 s :
  run (sched1 ++ sched2) s = run sched1 s ≫= run sched2.
Proof.
  revert s. induction sched1 as [|l sched1 IH]; intros s; simpl; [done|].
  destruct (step l s); [apply IH | done].
Qed.

(** A property of the start that every step keeps holds after every
    schedule. *)
Lemma run_invariant (P : System → Prop) sched s s' :
  (∀ l s1 s2, P s1 → step l s1 = Some s2 → P s2) →
  P s → run sched s = Some s' → P s'.
Proof.
  intros Hstep. revert s. induction sched as [|l sched IH]; intros s Hs; simpl.
  - by intros [= <-].
  - destruct (step l s) as [s1|] eqn:E; [|done]. eauto.
Qed.

(** *** The barrier *)

Lemma draining_false s :
  barrier s ↔
  (outCount1 (outCount (self s)) <? outCount0 (outCount (self s)))%N = false ∧
  (outCount3 (outCount (self s)) <? outCount2 (outCount (self s)))%N = false ∧
  FileChan (self s) = [].
Proof.
  unfold barrier, draining, text_running, files_running, files_queued.
  rewrite !orb_false_iff.
  destruct (FileChan (self s)); simpl.
  - split; [by intros [[? ?] _] | by intros (? & ? & _)].
  - split; [by intros [_ ?] | by intros (_ & _ & ?)].
Qed.

(** With nothing in flight and the file channel empty the
    barrier holds, whatever the counters went through. *)
Lemma nothing_in_flight_barrier s :
  counters_ok s → all_finished s → all_saved s → FileChan (self s) = [] →
  barrier s.
Proof.
  intros (H0 & H1 & H2 & H3 & _) Ho Hf Hch. apply draining_false.
  assert (finished_count (outputs s) = length (outputs s)) as E1.
  { unfold finished_count, is_finished. clear -Ho.
    induction Ho as [|t l Ht _ IH]; simpl; [done|]. rewrite Ht. lia. }
  assert (saved_count (files s) = length (files s)) as E2.
  { unfold saved_count. clear -Hf.
    induction Hf as [|t l Ht _ IH]; simpl; [done|]. rewrite Ht. lia. }
  rewrite H0, H1, H2, H3, E1, E2, !N.ltb_irrefl. done.
Qed.

(** *** What a step does to the place of [Manage] *)

Lemma dockerOne_frame d s s' :
  dockerOne d s = Some s' →
  pc s' = pc s ∧ ReportChan s' = ReportChan s ∧
  spider (self s') = spider (self s) ∧ ctrl (self s') = ctrl (self s) ∧
  saveFile s' = saveFile s ∧ DataChan (self s') = DataChan (self s) ∧
  FileChan (self s') = FileChan (self s) ∧ files s' = files s.
Proof.
  unfold dockerOne.
  destruct (Dockers (queue (self s)) !! Curr (queue (self s))); [|done].
  case_match; by intros [= <-].
Qed.

Lemma label_cases l : l = LManage ∨ l ≠ LManage.
Proof. destruct l; auto. Qed.

(** Only [Manage] moves [Manage]. *)
Lemma step_pc l s s' :
  step l s = Some s' → l ≠ LManage → pc s' = pc s.
Proof.
  destruct l; simpl; try done; intros E _.
  - unfold CollectData in E. case_match; by simplify_eq.
  - unfold CollectFile in E. case_match; by simplify_eq.
  - unfold CtrlR in E. destruct (ctrl (self s)); by simplify_eq.
  - unfold output_step in E. destruct (outputs s !! k) as [t|]; [|done].
    destruct (stage t); by simplify_eq.
  - unfold SaveFile_step in E. destruct (saveFile s); [|done].
    destruct (FileChan (self s)); by simplify_eq.
  - unfold file_saved_step in E. destruct (files s !! k) as [t|]; [|done].
    destruct (saved t); by simplify_eq.
  - by simplify_eq.
Qed.

(** [Manage] comes to its report from the last operand of the
    condition of its second loop only, on finding the file channel
    empty. *)
Lemma enters_report l s s' :
  step l s = Some s' → pc s' = AtReport ∨ pc s' = Done →
  (pc s = AtReport ∨ pc s = Done) ∨
  (l = LManage ∧ pc s = AtWaitChan ∧ FileChan (self s) = [] ∧
   s' = set_pc AtReport s).
Proof.
  intros E Hpc'. destruct (label_cases l) as [->|Hl].
  - simpl in E. unfold Manage_step in E.
    destruct (pc s) eqn:Hpc; try done; try (by left; auto).
    + case_match; simplify_eq. by destruct Hpc'.
    + simplify_eq. by destruct Hpc'.
    + case_match; simplify_eq; by destruct Hpc'.
    + destruct (DataChan (self s)); [simplify_eq; by destruct Hpc'|].
      destruct (dockerOne _ _); simplify_eq; by destruct Hpc'.
    + simplify_eq. by destruct Hpc'.
    + case_match; simplify_eq; [rewrite Hpc in Hpc'|]; by destruct Hpc'.
    + case_match; simplify_eq; by destruct Hpc'.
    + destruct (files_queued (self s)) eqn:Hq; simplify_eq;
        [by destruct Hpc'|].
      right. unfold files_queued in Hq.
      by destruct (FileChan (self s)).
  - left. by rewrite <- (step_pc l s s').
Qed.

(** [Manage] comes past the first operand of that condition only on
    finding as many text outputs finished as started. *)
Lemma passes_text l s s' :
  step l s = Some s' → past_text (pc s') = true →
  past_text (pc s) = true ∨
  (l = LManage ∧ pc s = AtWait ∧ text_running (self s) = false ∧
   s' = set_pc AtWaitFiles s).
Proof.
  intros E Hpc'. destruct (label_cases l) as [->|Hl].
  - simpl in E. unfold Manage_step in E.
    destruct (pc s) eqn:Hpc; try done; try (by left).
    + case_match; by simplify_eq.
    + by simplify_eq.
    + case_match; by simplify_eq.
    + destruct (DataChan (self s)); [by simplify_eq|].
      destruct (dockerOne _ _); by simplify_eq.
    + by simplify_eq.
    + destruct (text_running (self s)) eqn:Ht; simplify_eq;
        [by rewrite Hpc in Hpc' | by right].
  - left. by rewrite <- (step_pc l s s').
Qed.


(** [Manage] leaves its first loop only on finding the control channel
    and the item channel empty. *)
Lemma leaves_loop l s s' :
  step l s = Some s' → pc s' = AtFinal → pc s ≠ AtFinal →
  l = LManage ∧ pc s = AtLoop ∧
  ctrl (self s) = [] ∧ DataChan (self s) = [] ∧ s' = set_pc AtFinal s.
Proof.
  intros E Hpc' Hne. destruct (label_cases l) as [->|Hl].
  - simpl in E. unfold Manage_step in E.
    destruct (pc s) eqn:Hpc; try done.
    + case_match; by simplify_eq.
    + by simplify_eq.
    + destruct (filling (self s)) eqn:Hf; simplify_eq.
      unfold filling, CtrlLen in Hf.
      apply negb_false_iff, andb_true_iff in Hf as [Hc Hd].
      apply Nat.eqb_eq in Hc, Hd.
      destruct (ctrl (self s)), (DataChan (self s)); done.
    + destruct (DataChan (self s)); [by simplify_eq|].
      destruct (dockerOne _ _); by simplify_eq.
    + case_match; simplify_eq; congruence.
    + case_match; by simplify_eq.
    + case_match; by simplify_eq.
    + by simplify_eq.
  - rewrite (step_pc l s s') in Hpc'; done.
Qed.

(** *** After the barrier *)

Definition text_countable s : Prop :=
  (N.of_nat (length (outputs s)) < uint_modulus)%N.

(** Once [Manage] has found the text outputs over, every output it
    triggered is over. *)
Definition drained_ok s : Prop :=
  past_text (pc s) = true → text_countable s → all_finished s.

Lemma finished_stuck k s :
  all_finished s → output_step k s = None.
Proof.
  intros Hall. unfold output_step.
  destruct (outputs s !! k) as [t'|] eqn:Hk; [|done].
  unfold all_finished in Hall. rewrite Forall_lookup in Hall.
  by rewrite (Hall k t' Hk).
Qed.

(** Past its loop [Manage] triggers nothing, and nothing else ever
    does: the outputs stay the ones they are, stage apart. *)
Lemma step_batches l s s' :
  step l s = Some s' → after_loop (pc s) = true → batches s' = batches s.
Proof.
  intros E Hpc. destruct l; simpl in E.
  - unfold Manage_step in E. destruct (pc s); try done.
    + case_match; by simplify_eq.
    + case_match; by simplify_eq.
    + case_match; by simplify_eq.
    + by simplify_eq.
  - unfold CollectData in E. case_match; by simplify_eq.
  - unfold CollectFile in E. case_match; by simplify_eq.
  - unfold CtrlR in E. destruct (ctrl (self s)); by simplify_eq.
  - unfold output_step in E. destruct (outputs s !! k) as [t|] eqn:Hk; [|done].
    destruct (stage t); simplify_eq; unfold batches at 1; simpl;
      by apply (batches_insert s k t).
  - unfold SaveFile_step in E. destruct (saveFile s); [|done].
    destruct (FileChan (self s)); by simplify_eq.
  - unfold file_saved_step in E. destruct (files s !! k) as [t|]; [|done].
    destruct (saved t); by simplify_eq.
  - by simplify_eq.
Qed.

Lemma batches_length s s' :
  batches s' = batches s → length (outputs s') = length (outputs s).
Proof.
  unfold batches. intros E. by rewrite <- (length_map batch), E, length_map.
Qed.

Lemma step_drained l s s' :
  counters_ok s → drained_ok s → step l s = Some s' → drained_ok s'.
Proof.
  intros Hc Hd E Hpc' Hcount.
  destruct (passes_text l s s' E Hpc') as [Hpc|(-> & Hpc & Ht & ->)].
  - assert (Hal : after_loop (pc s) = true) by (by destruct (pc s)).
    pose proof (step_batches l s s' E Hal) as Hbt.
    assert (Hfin : all_finished s).
    { apply Hd; [done|]. unfold text_countable in *.
      by rewrite <- (batches_length s s'). }
    destruct l; simpl in E.
    + unfold Manage_step in E. destruct (pc s); try done.
      * case_match; by simplify_eq.
      * case_match; by simplify_eq.
      * by simplify_eq.
    + unfold CollectData in E. case_match; by simplify_eq.
    + unfold CollectFile in E. case_match; by simplify_eq.
    + unfold CtrlR in E. destruct (ctrl (self s)); by simplify_eq.
    + by rewrite finished_stuck in E.
    + unfold SaveFile_step in E. destruct (saveFile s); [|done].
      destruct (FileChan (self s)); by simplify_eq.
    + unfold file_saved_step in E. destruct (files s !! k) as [t|]; [|done].
      destruct (saved t); by simplify_eq.
    + by simplify_eq.
  - destruct Hc as (H0 & H1 & _). unfold text_running in Ht.
    rewrite H0, H1 in Ht.
    apply wrap_barrier in Ht; [|apply finished_count_le | exact Hcount].
    by apply finished_count_full.
Qed.

(** Before [Manage] returns the report channel is empty; once it has,
    the channel holds one report, with the name and the keyword of the
    spider and, as item count, the number of items of the outputs
    triggered. *)
Definition report_ok s : Prop :=
  match pc s with
  | Done =>
      ∃ r, ReportChan s = [r] ∧
           SpiderName r = GetName (spider (self s)) ∧
           Keyword r = GetKeyword (spider (self s)) ∧
           (text_countable s →
            DataNum r = wrap (length (concat (batches s))))
  | _ => ReportChan s = []
  end.

Lemma step_report l s s' :
  counters_ok s → drained_ok s → report_ok s → step l s = Some s' →
  report_ok s'.
Proof.
  intros Hc Hd Hr E. destruct (label_cases l) as [->|Hl].
  - simpl in E. unfold Manage_step in E. unfold report_ok in *.
    destruct (pc s) eqn:Hpc; try done.
    + case_match; by simplify_eq.
    + by simplify_eq.
    + case_match; by simplify_eq.
    + destruct (DataChan (self s)); [by simplify_eq|].
      destruct (dockerOne _ _) as [s1|] eqn:E1; simplify_eq; simpl; [|done].
      apply dockerOne_frame in E1 as (_ & -> & _). done.
    + by simplify_eq.
    + case_match; simplify_eq; [by rewrite Hpc | done].
    + case_match; by simplify_eq.
    + case_match; by simplify_eq.
    + simplify_eq. simpl. rewrite Hr. eexists. split; [done|].
      split; [done|]. split; [done|]. simpl. intros Hcount.
      destruct Hc as (_ & _ & _ & _ & H4 & _). unfold dataSum. rewrite H4.
      f_equal. apply counted_items_finished.
      apply Hd; [by rewrite Hpc | done].
  - pose proof (step_pc l s s' E Hl) as Hpc. unfold report_ok in *.
    rewrite Hpc. destruct (pc s) eqn:Hpcs;
      try (destruct l; simpl in E;
           [done
           |unfold CollectData in E; case_match; by simplify_eq
           |unfold CollectFile in E; case_match; by simplify_eq
           |unfold CtrlR in E; destruct (ctrl (self s)); by simplify_eq
           |unfold output_step in E; destruct (outputs s !! k) as [t|]; [|done];
            destruct (stage t); by simplify_eq
           |unfold SaveFile_step in E; destruct (saveFile s); [|done];
            destruct (FileChan (self s)); by simplify_eq
           |unfold file_saved_step in E; destruct (files s !! k) as [t|]; [|done];
            destruct (saved t); by simplify_eq
           |by simplify_eq]).
    assert (Hbt : batches s' = batches s)
      by (apply (step_batches l); [done | by rewrite Hpcs]).
    destruct Hr as (r & Hrc & Hn & Hk & Hnum). exists r.
    unfold text_countable. rewrite Hbt, (batches_length s s' Hbt).
    destruct l; simpl in E.
    + done.
    + unfold CollectData in E. case_match; by simplify_eq.
    + unfold CollectFile in E. case_match; by simplify_eq.
    + unfold CtrlR in E. destruct (ctrl (self s)); by simplify_eq.
    + unfold output_step in E. destruct (outputs s !! k) as [t|]; [|done].
      destruct (stage t); by simplify_eq.
    + unfold SaveFile_step in E. destruct (saveFile s); [|done].
      destruct (FileChan (self s)); by simplify_eq.
    + unfold file_saved_step in E. destruct (files s !! k) as [t|]; [|done].
      destruct (saved t); by simplify_eq.
    + by simplify_eq.
Qed.

(** *** The invariant of a task *)

Definition task_ok s : Prop :=
  counters_ok s ∧ docker_ok s ∧ drained_ok s ∧ report_ok s.

Lemma initial_ok sp :
  0 < DockerSlots →
  task_ok (initial (DataCell := DataCell) (FileCell := FileCell) sp).
Proof.
  intros Hslots. split; [by repeat split|].
  split; [by apply initial_docker_ok|].
  split; [by intros ? | done].
Qed.

Lemma step_ok l s s' : task_ok s → step l s = Some s' → task_ok s'.
Proof.
  intros (Hc & Hd & Hdr & Hr) E.
  split; [by eapply step_counters|].
  split; [by eapply step_docker|].
  split; [by eapply step_drained | by eapply step_report].
Qed.

Lemma run_ok sp sched s :
  0 < DockerSlots → run sched (initial sp) = Some s → task_ok s.
Proof.
  intros Hslots. apply run_invariant; [apply step_ok | by apply initial_ok].
Qed.

(** *** Looking back along a schedule *)

Lemma run_last sched l s0 s :
  run (sched ++ [l]) s0 = Some s →
  ∃ s1, run sched s0 = Some s1 ∧ step l s1 = Some s.
Proof.
  rewrite run_app. destruct (run sched s0) as [s1|]; simpl; [|done].
  destruct (step l s1) eqn:E; [|done]. intros [= <-]. eauto.
Qed.

Lemma goOutput_grows i s :
  length (outputs (goOutput i s)) = S (length (outputs s)) ∧
  files (goOutput i s) = files s.
Proof. unfold goOutput. simpl. rewrite length_app. simpl. split; [lia|done]. Qed.










(** *** The shape of the outputs *)

Lemma concat_full_length (full : list (list DataCell)) n :
  Forall (λ b, length b = n) full → length (concat full) = length full * n.
Proof.
  induction 1 as [|b full Hb _ IH]; simpl; [done|].
  rewrite length_app, IH, Hb. lia.
Qed.

(** Past the loop the outputs are full dockers and a last one short of
    full: their number and sizes follow from the number of items. *)
Lemma batches_shape s :
  docker_ok s → after_loop (pc s) = true →
  let n := length (sent s) - length (DataChan (self s)) in
  sent s = concat (batches s) ++ DataChan (self s) ∧
  length (concat (batches s)) = n ∧
  ∃ full last,
    batches s = full ++ [last] ∧
    Forall (λ b, length b = capacity) full ∧
    length full = n / capacity ∧
    length last = n mod capacity.
Proof.
  intros (_ & _ & Hd) Hpc. rewrite Hpc in Hd.
  destruct Hd as (full & last & Hb & Hfull & Hlast & Hsent).
  pose proof capacity_pos as Hcap.
  assert (Hn : length (concat (batches s))
               = length (sent s) - length (DataChan (self s))).
  { apply (f_equal length) in Hsent. rewrite length_app in Hsent. lia. }
  cbv zeta. split; [done|]. split; [done|].
  exists full, last. split; [done|]. split; [done|].
  rewrite <- Hn, Hb, concat_app, length_app. simpl.
  rewrite app_nil_r, (concat_full_length full capacity) by done.
  split.
  - apply (Nat.div_unique _ _ _ (length last)); lia.
  - apply (Nat.mod_unique _ _ (length full)); lia.
Qed.


(** *** [Manage] can always return *)

(** [Manage] has put its token on the control channel and started the
    file worker by the time it enters its loop. *)
Definition worker_ok s : Prop :=
  (pc s = AtCtrlW → ctrl (self s) = []) ∧
  (pc s = AtCtrlW ∨ pc s = AtSaveFile ∨ saveFile s = true).


Lemma sum_list_with_pos {A} (f : A → nat) (l : list A) :
  0 < sum_list_with f l → ∃ k x, l !! k = Some x ∧ 0 < f x.
Proof.
  induction l as [|a l IH]; simpl; [lia|]. intros Hpos.
  destruct (decide (0 < f a)) as [Ha|Ha].
  - by exists 0, a.
  - destruct IH as (k & x & Hk & Hx); [lia|]. by exists (S k), x.
Qed.

Lemma sum_list_with_zero {A} (f : A → nat) (l : list A) :
  sum_list_with f l = 0 → Forall (λ x, f x = 0) l.
Proof.
  induction l as [|a l IH]; simpl; [constructor|]. intros Hz.
  constructor; [lia | apply IH; lia].
Qed.

(** What is left to do for a task: the steps of [Manage], the items
    and the token on the channels, the steps of the outputs. *)
Definition rank (p : Pc) : nat :=
  match p with
  | AtCtrlW => 9 | AtSaveFile => 8 | AtSelect => 7 | AtLoop => 6
  | AtFinal => 5 | AtWait => 4 | AtWaitFiles => 3 | AtWaitChan => 2
  | AtReport => 1 | Done | Crashed => 0
  end.

Definition stage_work (t : OutputTask) : nat :=
  match stage t with Spawned => 2 | Written => 1 | Finished => 0 end.

Definition unsaved (t : FileTask) : nat := if saved t then 0 else 1.

Definition work s : nat :=
  3 * rank (pc s) + 3 * length (DataChan (self s)) + length (ctrl (self s))
  + sum_list_with stage_work (outputs s)
  + 2 * length (FileChan (self s)) + sum_list_with unsaved (files s).

Lemma dockerOne_work d s s' :
  dockerOne d s = Some s' →
  sum_list_with stage_work (outputs s')
  ≤ sum_list_with stage_work (outputs s) + 2.
Proof.
  unfold dockerOne.
  destruct (Dockers (queue (self s)) !! Curr (queue (self s))); [|done].
  case_match; intros [= <-]; simpl; [|lia].
  rewrite sum_list_with_app. unfold stage_work. simpl. lia.
Qed.

(** The outputs can be brought to their end one step at a time. *)
Lemma output_progress s :
  0 < sum_list_with stage_work (outputs s) →
  ∃ k s', step (LOutput k) s = Some s' ∧ work s' < work s.
Proof.
  intros (k & t & Hk & Ht)%sum_list_with_pos. exists k. simpl.
  unfold output_step. rewrite Hk. unfold stage_work in Ht.
  destruct (stage t) eqn:Hst; [| |lia]; eexists; (split; [reflexivity|]).
  - pose proof (sum_list_with_insert stage_work _ _ _
      {| dataIndex := dataIndex t; batch := batch t; stage := Written |} Hk) as E.
    unfold stage_work in E. simpl in E. rewrite Hst in E.
    unfold work, stage_work. simpl. lia.
  - pose proof (sum_list_with_insert stage_work _ _ _
      {| dataIndex := dataIndex t; batch := batch t; stage := Finished |} Hk) as E.
    unfold stage_work in E. simpl in E. rewrite Hst in E.
    unfold work, stage_work. simpl. lia.
Qed.

Lemma file_progress s :
  0 < sum_list_with unsaved (files s) →
  ∃ k s', step (LFileSaved k) s = Some s' ∧ work s' < work s.
Proof.
  intros (k & t & Hk & Ht)%sum_list_with_pos. exists k. simpl.
  unfold file_saved_step. rewrite Hk. unfold unsaved in Ht.
  destruct (saved t) eqn:Hsv; [lia|]. eexists. split; [reflexivity|].
  pose proof (sum_list_with_insert unsaved _ _ _
    {| file := file t; saved := true |} Hk) as E.
  unfold unsaved in E. simpl in E. rewrite Hsv in E.
  unfold work, unsaved. simpl. lia.
Qed.

(** In its second loop [Manage] finds every operand of the condition
    false once the outputs and the file worker have taken the steps
    left to them. *)
Lemma settle s :
  counters_ok s → saveFile s = true →
  (∃ l s', step l s = Some s' ∧ pc s' = pc s ∧ work s' < work s) ∨
  (text_running (self s) = false ∧ files_running (self s) = false ∧
   files_queued (self s) = false).
Proof.
  intros Hc Hsv.
  destruct (decide (0 < sum_list_with stage_work (outputs s))) as [Ho|Ho].
  { destruct (output_progress s Ho) as (k & s' & E & Hlt).
    left. exists (LOutput k), s'. split; [done|]. split; [|done].
    by apply (step_pc (LOutput k) s s'). }
  destruct (FileChan (self s)) as [|f rest] eqn:Hfc.
  2:{ left. exists LSaveFile. simpl. unfold SaveFile_step. rewrite Hsv, Hfc.
      eexists. split; [reflexivity|]. split; [done|]. unfold work. simpl.
      rewrite sum_list_with_app, Hfc. unfold unsaved. simpl. lia. }
  destruct (decide (0 < sum_list_with unsaved (files s))) as [Hf|Hf].
  { destruct (file_progress s Hf) as (k & s' & E & Hlt).
    left. exists (LFileSaved k), s'. split; [done|]. split; [|done].
    by apply (step_pc (LFileSaved k) s s'). }
  right.
  assert (Hb : barrier s).
  { apply nothing_in_flight_barrier; [done | | | done].
    - assert (Hz : sum_list_with stage_work (outputs s) = 0) by lia.
      apply sum_list_with_zero in Hz. eapply Forall_impl; [exact Hz|].
      intros t. unfold stage_work. by destruct (stage t).
    - assert (Hz : sum_list_with unsaved (files s) = 0) by lia.
      apply sum_list_with_zero in Hz. eapply Forall_impl; [exact Hz|].
      intros t. unfold unsaved. by destruct (saved t). }
  unfold barrier, draining in Hb.
  by apply orb_false_iff in Hb as [[? ?]%orb_false_iff ?].
Qed.

(** From every state of a task short of the return of [Manage] some
    steps lead to a state with less left to do. *)
Lemma progress s :
  task_ok s → worker_ok s → pc s ≠ Done →
  ∃ sched s', run sched s = Some s' ∧ work s' < work s.
Proof.
  intros (Hc & Hd & _ & _) [Hctrl Hw] Hnd.
  assert (Hsettle : after_loop (pc s) = true →
            (∃ sched s', run sched s = Some s' ∧ work s' < work s) ∨
            (text_running (self s) = false ∧ files_running (self s) = false ∧
             files_queued (self s) = false)).
  { intros Hal.
    destruct Hw as [Hw|[Hw|Hsv]]; [by rewrite Hw in Hal..|].
    destruct (settle s Hc Hsv) as [(l & s' & E & _ & Hlt)|?]; [|by right].
    left. exists [l], s'. simpl. by rewrite E. }
  destruct (pc s) eqn:Hpc; try done.
  - (* CtrlW *)
    exists [LManage]. simpl. unfold Manage_step. rewrite Hpc, (Hctrl eq_refl).
    simpl. eexists. split; [reflexivity|]. unfold work. simpl.
    rewrite Hpc, (Hctrl eq_refl). simpl. lia.
  - (* go SaveFile *)
    exists [LManage]. simpl. unfold Manage_step. rewrite Hpc.
    eexists. split; [reflexivity|]. unfold work. simpl. rewrite Hpc. simpl. lia.
  - (* the condition of the loop *)
    destruct (ctrl (self s)) as [|b rest] eqn:Hc0.
    + destruct (DataChan (self s)) as [|d items] eqn:Hch.
      * exists [LManage]. simpl. unfold Manage_step, filling, CtrlLen.
        rewrite Hpc, Hc0, Hch. simpl. eexists. split; [reflexivity|].
        unfold work. simpl. rewrite Hpc, Hc0, Hch. simpl. lia.
      * assert (E0 : Manage_step s = Some (set_pc AtSelect s)).
        { unfold Manage_step, filling, CtrlLen. by rewrite Hpc, Hc0, Hch. }
        pose proof (Manage_step_docker _ _ Hd E0) as Hd0.
        destruct (dockerOne_docker d items (set_pc AtSelect s) Hd0)
          as (s1 & E1 & _); [done | done |].
        simpl in E1.
        exists [LManage; LManage]. simpl. rewrite E0.
        unfold Manage_step. simpl. rewrite Hch, E1.
        eexists. split; [reflexivity|].
        pose proof (dockerOne_work _ _ _ E1) as Hwk.
        apply dockerOne_frame in E1 as (_ & _ & _ & Hc1 & _ & Hd1 & Hf1 & Hfs).
        unfold work. simpl in *. rewrite Hc1, Hd1, Hf1, Hfs, Hpc, Hc0, Hch.
        simpl. lia.
    + exists [LCtrlR]. simpl. unfold CtrlR. rewrite Hc0.
      eexists. split; [reflexivity|]. unfold work. simpl. rewrite Hc0. simpl.
      lia.
  - (* the select *)
    destruct (DataChan (self s)) as [|d items] eqn:Hch.
    + exists [LManage]. simpl. unfold Manage_step. rewrite Hpc, Hch.
      eexists. split; [reflexivity|]. unfold work. simpl.
      rewrite Hpc, Hch. simpl. lia.
    + destruct (dockerOne_docker d items s Hd) as (s1 & E1 & _);
        [by rewrite Hpc | done |].
      exists [LManage]. simpl. unfold Manage_step. rewrite Hpc, Hch, E1.
      eexists. split; [reflexivity|].
      pose proof (dockerOne_work _ _ _ E1) as Hwk.
      apply dockerOne_frame in E1 as (_ & _ & _ & Hc1 & _ & Hd1 & Hf1 & Hfs).
      unfold work. simpl in *. rewrite Hc1, Hd1, Hf1, Hfs, Hpc, Hch. simpl.
      lia.
  - (* the last goOutput *)
    exists [LManage]. simpl. unfold Manage_step. rewrite Hpc.
    eexists. split; [reflexivity|]. unfold work. simpl.
    rewrite sum_list_with_app, Hpc. unfold stage_work. simpl. lia.
  - (* the second loop, the text outputs *)
    destruct (Hsettle eq_refl) as [?|(Ht & _)]; [done|].
    exists [LManage]. simpl. unfold Manage_step. rewrite Hpc, Ht.
    eexists. split; [reflexivity|]. unfold work. simpl. rewrite Hpc. simpl. lia.
  - (* the second loop, the file outputs *)
    destruct (Hsettle eq_refl) as [?|(_ & Hf & _)]; [done|].
    exists [LManage]. simpl. unfold Manage_step. rewrite Hpc, Hf.
    eexists. split; [reflexivity|]. unfold work. simpl. rewrite Hpc. simpl. lia.
  - (* the second loop, the file channel *)
    destruct (Hsettle eq_refl) as [?|(_ & _ & Hq)]; [done|].
    exists [LManage]. simpl. unfold Manage_step. rewrite Hpc, Hq.
    eexists. split; [reflexivity|]. unfold work. simpl. rewrite Hpc. simpl. lia.
  - (* the report *)
    exists [LManage]. simpl. unfold Manage_step. rewrite Hpc.
    eexists. split; [reflexivity|]. unfold work. simpl. rewrite Hpc. simpl. lia.
  - by destruct Hd as (_ & ? & _).
Qed.





(** ** The properties of the pipeline *)




(** C10. Where [Manage] stands after its loop its step is [goOutput]
    of the current docker, whatever the docker holds; so past the loop
    there is a last output, which holds the items taken off the channel
    that did not fill a docker, and none when their number is zero or a
    multiple of the capacity. *)
Theorem final_output_unconditional (sp : Spider) sched s
    (Hslots : 0 < DockerSlots)
    (Hrun : run sched (initial sp) = Some s) :
  (pc s = AtFinal →
   step LManage s
   = Some (set_pc AtWait (goOutput (Curr (queue (self s))) s)) ∧
   length (outputs (goOutput (Curr (queue (self s))) s))
   = S (length (outputs s))) ∧
  (after_loop (pc s) = true →
   let n := length (sent s) - length (DataChan (self s)) in
   ∃ front last,
     outputs s = front ++ [last] ∧
     length (batch last) = n mod capacity ∧
     (n mod capacity = 0 → batch last = [])) ∧
  ((1 ≤ DockerCap)%Z → Z.of_nat capacity = DockerCap).
Proof.
  pose proof (run_ok sp sched s Hslots Hrun) as (_ & Hd & _).
  split; [|split].
  - intros Hpc. split; [|apply goOutput_grows].
    simpl. unfold Manage_step. by rewrite Hpc.
  - intros Hafter.
    destruct (batches_shape s Hd Hafter)
      as (_ & _ & full & last & Hb & _ & _ & Hlast).
    cbv zeta in *. unfold batches in Hb.
    apply fmap_app_inv in Hb as (front & tl & -> & Htl & ->).
    destruct tl as [|t [|t' tl]]; try done. injection Htl as ->.
    exists front, t. split; [done|]. split; [done|].
    intros Hz. rewrite Hz in Hlast. by destruct (batch t).
  - intros HC. unfold capacity. lia.
Qed.

(** ** Further properties of the pipeline *)

(** *** The token on the control channel *)

Definition is_CtrlR l : bool :=
  match l with LCtrlR => true | _ => false end.

(** The calls of [CtrlR] a schedule completes. *)
Definition shutdowns sched : nat := length (filter (λ l, is_CtrlR l = true) sched).

Lemma shutdowns_snoc sched l :
  shutdowns (sched ++ [l]) = shutdowns sched + (if is_CtrlR l then 1 else 0).
Proof.
  unfold shutdowns. rewrite filter_app, length_app. f_equal.
  rewrite filter_cons, filter_nil. destruct (is_CtrlR l); by case_decide.
Qed.

(** What a step does to the control channel. *)
Lemma step_ctrl l s s' :
  step l s = Some s' →
  match l with
  | LManage =>
      if decide (pc s = AtCtrlW)
      then ctrl (self s) = [] ∧ ctrl (self s') = [true] ∧ pc s' = AtSaveFile
      else ctrl (self s') = ctrl (self s) ∧ pc s' ≠ AtCtrlW
  | LCtrlR => ∃ b, ctrl (self s) = b :: ctrl (self s')
  | _ => ctrl (self s') = ctrl (self s)
  end.
Proof.
  intros E. destruct l; simpl in E.
  - unfold Manage_step in E. destruct (pc s) eqn:Hpc; try done;
      (case_decide; try done).
    + destruct (ctrl (self s)); simpl in E; by simplify_eq.
    + by simplify_eq.
    + case_match; by simplify_eq.
    + destruct (DataChan (self s)); [by simplify_eq|].
      destruct (dockerOne _ _) as [s1|] eqn:E1; simplify_eq; simpl; [|done].
      by apply dockerOne_frame in E1 as (_ & _ & _ & -> & _).
    + by simplify_eq.
    + case_match; simplify_eq; [by rewrite Hpc | done].
    + case_match; by simplify_eq.
    + case_match; by simplify_eq.
    + by simplify_eq.
  - unfold CollectData in E. case_match; by simplify_eq.
  - unfold CollectFile in E. case_match; by simplify_eq.
  - unfold CtrlR in E. destruct (ctrl (self s)) as [|b rest]; simplify_eq.
    by exists b.
  - unfold output_step in E. destruct (outputs s !! k) as [t|]; [|done].
    destruct (stage t); by simplify_eq.
  - unfold SaveFile_step in E. destruct (saveFile s); [|done].
    destruct (FileChan (self s)); by simplify_eq.
  - unfold file_saved_step in E. destruct (files s !! k) as [t|]; [|done].
    destruct (saved t); by simplify_eq.
  - by simplify_eq.
Qed.

(** [Manage] has left its first loop. *)
Definition past_loop (p : Pc) : bool :=
  match p with AtFinal => true | _ => after_loop p end.

(** The token [Manage] puts on the control channel is on the channel or
    was taken by the one [CtrlR] of the schedule, and it was taken when
    [Manage] has left its first loop. *)
Definition token_ok sched s : Prop :=
  shutdowns sched + length (ctrl (self s))
  = (if decide (pc s = AtCtrlW) then 0 else 1) ∧
  (past_loop (pc s) = true → ctrl (self s) = []).

Lemma run_token sp sched s :
  run sched (initial sp) = Some s → token_ok sched s.
Proof.
  revert s. induction sched as [|l sched IH] using rev_ind; intros s.
  - intros [= <-]. by split.
  - intros (s0 & Hrun & E)%run_last. destruct (IH s0 Hrun) as [Htok Hpast].
    pose proof (step_ctrl l s0 s E) as Hc.
    unfold token_ok. rewrite shutdowns_snoc.
    destruct (label_cases l) as [->|Hl].
    + simpl. destruct (decide (pc s0 = AtCtrlW)) as [Hpc0|Hpc0].
      * destruct Hc as (Hc0 & -> & ->). rewrite Hc0 in Htok. simpl in *.
        split; [lia | done].
      * destruct Hc as [-> Hpc]. rewrite decide_False by done.
        split; [lia|]. intros Hp.
        destruct (past_loop (pc s0)) eqn:Hp0; [by apply Hpast|].
        assert (Hf : pc s = AtFinal).
        { simpl in E. unfold Manage_step in E.
          destruct (pc s0); try done.
          - by simplify_eq.
          - case_match; by simplify_eq.
          - destruct (DataChan (self s0)); [by simplify_eq|].
            destruct (dockerOne _ _) as [s1|] eqn:E1; by simplify_eq. }
        destruct (leaves_loop LManage s0 s E Hf) as (_ & _ & ? & _);
          [by intros Heq; rewrite Heq in Hp0 | done].
    + pose proof (step_pc l s0 s E Hl) as Hpc. rewrite Hpc.
      destruct l; try done; simpl in *;
        try (rewrite Hc; split; [lia | done]).
      destruct Hc as [b Hc]. rewrite Hc in Htok, Hpast. simpl in *.
      split; [lia|]. intros Hp. by specialize (Hpast Hp).
Qed.

(** X12. [Manage] does not leave its first loop before the shutdown
    was requested.  Along every schedule the token [Manage] put on the
    control channel is on the channel or was taken by a [CtrlR], so a
    schedule completes at most one [CtrlR] and none before [Manage]
    has called [CtrlW]; and when [Manage] is past its first loop the
    schedule has completed its one [CtrlR] and the control channel is
    empty, so that a further [CtrlR] blocks. *)
Theorem no_exit_before_shutdown (sp : Spider) sched s
    (Hrun : run sched (initial sp) = Some s) :
  shutdowns sched + length (ctrl (self s))
  = (if decide (pc s = AtCtrlW) then 0 else 1) ∧
  shutdowns sched ≤ 1 ∧
  (past_loop (pc s) = true →
   shutdowns sched = 1 ∧ LCtrlR ∈ sched ∧
   ctrl (self s) = [] ∧ step LCtrlR s = None).
Proof.
  destruct (run_token sp sched s Hrun) as [Htok Hpast].
  split; [done|]. split; [case_decide; lia|].
  intros Hp. specialize (Hpast Hp).
  assert (Hn : shutdowns sched = 1).
  { rewrite Hpast in Htok. simpl in Htok.
    rewrite decide_False in Htok by (by intros Heq; rewrite Heq in Hp). lia. }
  split; [done|]. split; [|split; [done | by simpl; unfold CtrlR; rewrite Hpast]].
  unfold shutdowns in Hn.
  destruct (filter (λ l, is_CtrlR l = true) sched) as [|l rest] eqn:Hf; [done|].
  assert (Hin : l ∈ filter (λ l, is_CtrlR l = true) sched)
    by (rewrite Hf; by left).
  apply list_elem_of_filter in Hin as [Hl Hin]. by destruct l.
Qed.

(** *** The size of an output *)

(** X13. No output holds more items than a docker takes, at any point
    of any schedule: while [Manage] is in its first loop the outputs
    triggered hold [capacity] items each and the current docker fewer,
    so that [Manage] has started at most one output for every
    [capacity] items sent, and one more once it is past the loop; with
    a [DockerCap] of one or less, zero and negative ones included,
    every output holds one item at most. *)
Theorem outputs_bounded (sp : Spider) sched s
    (Hslots : 0 < DockerSlots)
    (Hrun : run sched (initial sp) = Some s) :
  Forall (λ b, length b ≤ capacity) (batches s) ∧
  (after_loop (pc s) = false →
   Forall (λ b, length b = capacity) (batches s) ∧
   (∀ cur, Dockers (queue (self s)) !! Curr (queue (self s)) = Some cur →
           length cur < capacity) ∧
   length (outputs s) * capacity ≤ length (sent s)) ∧
  length (outputs s) ≤ length (sent s) / capacity + 1 ∧
  ((DockerCap ≤ 1)%Z → Forall (λ b, length b ≤ 1) (batches s)).
Proof.
  pose proof (run_ok sp sched s Hslots Hrun) as (_ & Hd & _).
  pose proof capacity_pos as Hcap.
  destruct Hd as (_ & _ & Hd).
  assert (Hlen : length (outputs s) = length (batches s))
    by (unfold batches; by rewrite length_map).
  assert (Hall : Forall (λ b, length b ≤ capacity) (batches s) ∧
                 length (outputs s) ≤ length (sent s) / capacity + 1 ∧
                 (after_loop (pc s) = false →
                  Forall (λ b, length b = capacity) (batches s) ∧
                  (∀ cur, Dockers (queue (self s)) !! Curr (queue (self s))
                          = Some cur → length cur < capacity) ∧
                  length (outputs s) * capacity ≤ length (sent s))).
  { destruct (after_loop (pc s)).
    - destruct Hd as (full & last & Hb & Hfull & Hlast & Hsent).
      split; [|split; [|done]].
      + rewrite Hb. apply Forall_app. split.
        * eapply Forall_impl; [exact Hfull|]. simpl. lia.
        * constructor; [lia | constructor].
      + apply (f_equal length) in Hsent.
        rewrite Hb, concat_app, !length_app in Hsent.
        rewrite (concat_full_length full capacity) in Hsent by done.
        rewrite Hlen, Hb, length_app. simpl.
        assert (length full ≤ length (sent s) / capacity); [|lia].
        apply Nat.div_le_lower_bound; lia.
    - destruct Hd as (cur & Hcur & Hfull & Hlt & Hsent).
      apply (f_equal length) in Hsent. rewrite !length_app in Hsent.
      rewrite (concat_full_length _ capacity) in Hsent by done.
      assert (Hle : length (outputs s) * capacity ≤ length (sent s))
        by (rewrite Hlen; lia).
      split; [|split].
      + eapply Forall_impl; [exact Hfull|]. simpl. lia.
      + assert (length (outputs s) ≤ length (sent s) / capacity); [|lia].
        apply Nat.div_le_lower_bound; lia.
      + intros _. split; [done|]. split; [|done].
        intros cur' Hcur'. rewrite Hcur in Hcur'. by injection Hcur' as <-. }
  destruct Hall as (Hle & Hn & Hloop).
  split; [done|]. split; [done|]. split; [done|].
  intros Hone. assert (capacity = 1) as <- by (unfold capacity; lia). done.
Qed.

(** *** The running totals *)

(** X14. [setDataSum] adds modulo the width of a counter and keeps the
    total before the last addition: after any number of calls on
    totals that are in range, the text total is the sum of the total
    before and of what was added, modulo [2^64], the file total is as
    it was, and [sum[0]] holds the text total before the last call;
    [setFileSum] leaves both text totals as they are, and the two
    commute. *)
Theorem setDataSum_accumulates (c : Collector (DataCell := DataCell)
                                      (FileCell := FileCell))
    (adds : list N) (a f : N)
    (Hrange : (dataSum c < uint_modulus)%N) :
  let c' := foldl (λ c a, setDataSum a c) c adds in
  dataSum c' = ((dataSum c + foldr N.add 0 adds) mod uint_modulus)%N ∧
  fileSum c' = fileSum c ∧
  sum0 (sum (setDataSum a c')) = dataSum c' ∧
  dataSum (setFileSum f c') = dataSum c' ∧
  sum0 (sum (setFileSum f c')) = sum0 (sum c') ∧
  setFileSum f (setDataSum a c') = setDataSum a (setFileSum f c').
Proof.
  cbv zeta. split; [|split; [|done]].
  - revert c Hrange. induction adds as [|x adds IH]; intros c Hrange; simpl.
    + by rewrite N.add_0_r, N.mod_small.
    + rewrite IH by (unfold dataSum, setDataSum, uint_add; simpl;
                     by apply N.mod_upper_bound).
      unfold dataSum, setDataSum, uint_add. simpl.
      rewrite N.Div0.add_mod_idemp_l. f_equal. lia.
  - clear Hrange. revert c. induction adds as [|x adds IH]; intros c; simpl;
      [done | by rewrite IH].
Qed.

(** *** What the report says *)



(** *** Items sent too late *)

(** Past the loop of [Manage] a step triggers no output, and an item
    sent stays on the channel. *)
Lemma step_late l s s' :
  after_loop (pc s) = true → step l s = Some s' →
  after_loop (pc s') = true ∧
  ∃ late, DataChan (self s') = DataChan (self s) ++ late ∧
          sent s' = sent s ++ late.
Proof.
  intros Hp E. destruct l; simpl in E.
  - unfold Manage_step in E. destruct (pc s) eqn:Hpc; try done.
    + case_match; simplify_eq; simpl; [rewrite Hpc|];
        (split; [done|]); exists []; by rewrite !app_nil_r.
    + case_match; simplify_eq; simpl;
        (split; [done|]); exists []; by rewrite !app_nil_r.
    + case_match; simplify_eq; simpl;
        (split; [done|]); exists []; by rewrite !app_nil_r.
    + simplify_eq. simpl. split; [done|]. exists []. by rewrite !app_nil_r.
  - unfold CollectData in E. case_match; simplify_eq. simpl.
    split; [done|]. by exists [d].
  - unfold CollectFile in E. case_match; simplify_eq. simpl.
    split; [done|]. exists []. by rewrite !app_nil_r.
  - unfold CtrlR in E. destruct (ctrl (self s)); simplify_eq. simpl.
    split; [done|]. exists []. by rewrite !app_nil_r.
  - unfold output_step in E. destruct (outputs s !! k) as [t|]; [|done].
    destruct (stage t); simplify_eq; simpl;
      (split; [done|]); exists []; by rewrite !app_nil_r.
  - unfold SaveFile_step in E. destruct (saveFile s); [|done].
    destruct (FileChan (self s)); simplify_eq. simpl.
    split; [done|]. exists []. by rewrite !app_nil_r.
  - unfold file_saved_step in E. destruct (files s !! k) as [t|]; [|done].
    destruct (saved t); simplify_eq. simpl.
    split; [done|]. exists []. by rewrite !app_nil_r.
  - simplify_eq. simpl. split; [done|]. exists []. by rewrite !app_nil_r.
Qed.

(** X16. An item sent after [Manage] has left its loop is never
    output.  From a state in which [Manage] is past its last
    [goOutput], whatever the goroutines do afterwards, the outputs
    stay the ones they are with the items they hold, [Manage] stays
    past its loop, and the items sent since are on the channel behind
    those that were there, in the order sent. *)
Theorem late_items_stay_on_channel (s s' : System) sched
    (Hafter : after_loop (pc s) = true)
    (Hrun : run sched s = Some s') :
  batches s' = batches s ∧
  after_loop (pc s') = true ∧
  ∃ late, DataChan (self s') = DataChan (self s) ++ late ∧
          sent s' = sent s ++ late.
Proof.
  revert s Hafter Hrun. induction sched as [|l sched IH]; intros s Hafter; simpl.
  - intros [= <-]. split; [done|]. split; [done|].
    exists []. by rewrite !app_nil_r.
  - destruct (step l s) as [s1|] eqn:E; [|done]. intros Hrun.
    destruct (step_late l s s1 Hafter E) as (Hp1 & late1 & Hd1 & Hs1).
    destruct (IH s1 Hp1 Hrun) as (Hb & Hp & late & Hd & Hs).
    split; [by rewrite Hb, (step_batches l s s1 E Hafter)|].
    split; [done|]. exists (late1 ++ late).
    by rewrite Hd, Hs, Hd1, Hs1, <- !app_assoc.
Qed.
End Proofs.

(** ** A task to run *)

(** Dockers of three items, two of them, a channel of four; items and
    files are numbers. *)
Definition dockers_of_three : Config :=
  {| DATA_CAP := 4; DockerCap := 3; DockerSlots := 2;
     StartTime := 0; OutType := "csv" |}.

(** The same with dockers of one item. *)
Definition dockers_of_one : Config :=
  {| DATA_CAP := 4; DockerCap := 1; DockerSlots := 2;
     StartTime := 0; OutType := "csv" |}.

Definition crawl : Spider := {| GetName := "spider"; GetKeyword := "go" |}.

(** Seven items are sent while [Manage] runs, then the shutdown is
    requested; the outputs run once [Manage] waits in its second loop,
    of whose condition it then finds the three operands false, one
    after the other. *)
Definition seven_items : list (@Label nat nat) :=
  [LManage; LManage;
   LCollectData 1; LCollectData 2; LCollectData 3; LCollectData 4;
   LManage; LManage; LManage; LManage; LManage; LManage; LManage; LManage;
   LCollectData 5; LCollectData 6; LCollectData 7; LCtrlR;
   LManage; LManage; LManage; LManage; LManage; LManage; LManage;
   LManage; LOutput 0; LOutput 1; LOutput 0; LManage; LManage;
   LOutput 2; LOutput 1; LOutput 2; LManage; LManage; LManage;
   LTick; LManage].

Definition seven_items_end : @System nat nat :=
  Eval vm_compute in
    default (initial (H := dockers_of_three) crawl)
      (run (H := dockers_of_three) seven_items
         (initial (H := dockers_of_three) crawl)).

Lemma seven_items_run :
  run (H := dockers_of_three) seven_items
    (initial (H := dockers_of_three) crawl) = Some seven_items_end.
Proof. vm_compute. reflexivity. Qed.

(** Two items with dockers of one item, the shutdown requested after
    them; [Manage] is brought to the barrier. *)
Definition two_items : list (@Label nat nat) :=
  [LManage; LManage; LCollectData 1; LCollectData 2; LCtrlR;
   LManage; LManage; LManage; LManage; LManage; LManage].

Definition two_items_end : @System nat nat :=
  Eval vm_compute in
    default (initial (H := dockers_of_one) crawl)
      (run (H := dockers_of_one) two_items
         (initial (H := dockers_of_one) crawl)).

Lemma two_items_run :
  run (H := dockers_of_one) two_items
    (initial (H := dockers_of_one) crawl) = Some two_items_end.
Proof. vm_compute. reflexivity. Qed.



(** A file is on the file channel when the shutdown is requested.
    [Manage] leaves its first loop, its one output runs, and it reads
    the condition of its second loop: the text outputs are over, no
    file output was started, and before it reads the length of the
    file channel the file worker takes the file off it. *)
Definition file_in_flight : list (@Label nat nat) :=
  [LManage; LManage; LCollectFile 42; LCtrlR; LManage; LManage;
   LOutput 0; LOutput 0; LManage; LManage; LSaveFile; LManage; LManage].

Definition file_in_flight_end : @System nat nat :=
  Eval vm_compute in
    default (initial (H := dockers_of_three) crawl)
      (run (H := dockers_of_three) file_in_flight
         (initial (H := dockers_of_three) crawl)).

(** What the run shows of a state: where [Manage] stands, the file
    channel, the file outputs started, their two counters. *)
Definition file_view (s : @System nat nat)
    : Pc * list nat * list (@FileTask nat) * (N * N) :=
  (pc s, FileChan (self s), files s,
   (outCount2 (outCount (self s)), outCount3 (outCount (self s)))).

(** C1, at the failing input: [Manage] reads [outCount[2] >
    outCount[3]] with the file still on the channel and no file output
    started, the file worker takes the file and starts its output, and
    [Manage] reads [len(self.FileChan) > 0] on the empty channel; it
    reports, with a file count of zero, and returns while the file
    output it did not wait for is in flight and the condition of its
    second loop, read in the state it reports in, is true. *)
Lemma Manage_reports_with_file_in_flight :
  let start := initial (H := dockers_of_three) crawl in
  let at_step n := file_view <$> run (H := dockers_of_three)
                                   (take n file_in_flight) start in
  at_step 9 = Some (AtWaitFiles, [42], [], (0, 0)%N) ∧
  at_step 10 = Some (AtWaitChan, [42], [], (0, 0)%N) ∧
  at_step 11
  = Some (AtWaitChan, [], [{| file := 42; saved := false |}], (1, 0)%N) ∧
  at_step 12
  = Some (AtReport, [], [{| file := 42; saved := false |}], (1, 0)%N) ∧
  (draining ∘ self <$> run (H := dockers_of_three) (take 12 file_in_flight) start)
  = Some true ∧
  run (H := dockers_of_three) file_in_flight start = Some file_in_flight_end ∧
  pc file_in_flight_end = Done ∧
  files file_in_flight_end = [{| file := 42; saved := false |}] ∧
  ReportChan file_in_flight_end
  = [{| SpiderName := "spider"; Keyword := "go"; DataNum := 0;
        FileNum := 0; Time := 0 |}] ∧
  all_finished file_in_flight_end ∧
  ¬ all_saved file_in_flight_end.
Proof.
  cbv zeta. repeat split; try (vm_compute; reflexivity).
  - repeat constructor.
  - intros Hall. by apply Forall_cons_1 in Hall as [? _].
Qed.




(** C10 on the run of two items with dockers of one: the last output
    is of an empty docker. *)
Lemma final_output_unconditional_witness :
  ∃ front last,
    outputs two_items_end = front ++ [last] ∧
    length (batch last) = 0 ∧ batch last = [].
Proof.
  destruct (final_output_unconditional (H := dockers_of_one)
              crawl two_items two_items_end
              ltac:(simpl; lia) two_items_run)
    as (_ & Hlast & _).
  destruct (Hlast eq_refl) as (front & last & Ho & Hl & Hz).
  exact (ex_intro _ front (ex_intro _ last (conj Ho (conj Hl (Hz eq_refl))))).
Defined.

(** ** Further runs *)




(** Two items sent after [Manage] has returned from the run of seven
    items. *)
Definition two_late_items : list (@Label nat nat) :=
  [LCollectData 8; LTick; LCollectData 9].

Definition two_late_items_end : @System nat nat :=
  Eval vm_compute in
    default seven_items_end
      (run (H := dockers_of_three) two_late_items seven_items_end).

Lemma two_late_items_run :
  run (H := dockers_of_three) two_late_items seven_items_end
  = Some two_late_items_end.
Proof. vm_compute. reflexivity. Qed.

(** X12 on the run of seven items. *)
Lemma no_exit_before_shutdown_witness :
  shutdowns seven_items = 1 ∧ LCtrlR ∈ seven_items ∧
  ctrl (self seven_items_end) = [] ∧
  step (H := dockers_of_three) LCtrlR seven_items_end = None.
Proof.
  destruct (no_exit_before_shutdown (H := dockers_of_three)
              crawl seven_items seven_items_end seven_items_run)
    as (_ & _ & Hp).
  exact (Hp eq_refl).
Defined.

(** X13 on the run of seven items with dockers of three. *)
Lemma outputs_bounded_witness :
  Forall (λ b, length b ≤ 3) (batches seven_items_end) ∧
  length (outputs seven_items_end) ≤ 7 / 3 + 1.
Proof.
  destruct (outputs_bounded (H := dockers_of_three)
              crawl seven_items seven_items_end
              ltac:(simpl; lia) seven_items_run)
    as (Hb & _ & Hn & _).
  exact (conj Hb Hn).
Defined.

(** X14 on a collector as [Init] leaves it, the outputs of the run of
    seven items counted one after the other. *)
Lemma setDataSum_accumulates_witness :
  let c := foldl (λ c a, setDataSum a c)
             (Init (H := dockers_of_three) (DataCell := nat) (FileCell := nat)
                crawl) [3; 3; 1]%N in
  dataSum c = ((0 + (3 + (3 + (1 + 0)))) mod uint_modulus)%N ∧
  fileSum c = 0%N.
Proof.
  destruct (setDataSum_accumulates
              (Init (H := dockers_of_three) (DataCell := nat) (FileCell := nat)
                 crawl) [3; 3; 1]%N 0%N 0%N eq_refl)
    as (Hd & Hf & _).
  exact (conj Hd Hf).
Defined.


(** X16 on the two items sent after the run of seven items. *)
Lemma late_items_stay_on_channel_witness :
  batches two_late_items_end = batches seven_items_end ∧
  after_loop (pc two_late_items_end) = true ∧
  ∃ late, DataChan (self two_late_items_end)
          = DataChan (self seven_items_end) ++ late ∧
          sent two_late_items_end = sent seven_items_end ++ late.
Proof.
  exact (late_items_stay_on_channel (H := dockers_of_three)
           seven_items_end two_late_items_end two_late_items
           eq_refl two_late_items_run).
Defined.

End Collector.
